(** * iotex-core: cached write batch, endorsement set, sync worker, dispatcher

    A shallow embedding of four components of the node core
    ([db/batch.go], [endorsement/endorsementset.go], [blocksync/worker.go],
    [dispatcher/dispatcher.go]) together with the properties that the
    specification states about them.

    Conventions.
    - Go's [[]byte] is [list byte]; a [nil] slice and an empty slice are both
      the empty list (the code only ever appends to, ranges over or takes the
      length of them).
    - Go's [string] is [string].
    - Unsigned wire integers that are only stored and compared are [N].
    - Go's [int] is [Z].  Where an [int] is bounded by the length of a slice
      (a queue size, a snapshot tag, the round-robin index after its
      reduction) no wrap-around can happen and none is written; the event
      audit counter, which grows without such a bound, wraps explicitly.
    - Mutexes are left out: every operation below is the body of one
      critical section. *)

From Stdlib Require Import ZArith Lia.
From Stdlib.Strings Require Import Byte.
From stdpp Require Import base option list gmap strings countable.

#[local] Open Scope Z_scope.

(** ** Bytes as map keys *)

#[global] Instance byte_eq_dec : EqDecision byte := Byte.byte_eq_dec.

#[global] Instance byte_countable : Countable byte :=
  inj_countable Byte.to_N Byte.of_N Byte.of_to_N.

Abbreviation bytes := (list byte).

(** * db/batch.go *)

Module Batch.

(** Errors of package [db].  [Wrapf] is [errors.Wrapf] with its single
    integer argument. *)
Inductive error : Type :=
  | ErrInvalidDB
  | ErrAlreadyExist
  | ErrNotExist
  | Wrapf (cause : error) (format : string) (arg : Z).

(** The write types ([int32] constants). *)
Definition Put : Z := 0.
Definition Delete : Z := 1.
Definition PutIfNotExists : Z := 2.

(** [writeInfo]: one staged operation.  The variadic [errorArgs] are carried
    along untouched; they are kept here in printed form. *)
Record writeInfo : Type := mkWriteInfo {
  writeType : Z;
  namespace : string;
  key : bytes;
  value : bytes;
  errorFormat : string;
  errorArgs : list string
}.

(** ** baseKVStoreBatch *)

(** Both batch types have methods [Put], [PutIfNotExists], [Delete] and
    [Clear], names that the write types above use as well; the methods of
    [baseKVStoreBatch] are prefixed [base_] here and those of [cachedBatch]
    are prefixed [cached_]. *)

Record baseKVStoreBatch : Type := mkBase {
  writeQueue : list writeInfo
}.

Definition NewBatch : baseKVStoreBatch := mkBase [].

(** [batch]: append one entry to the write queue. *)
Definition batch (op : Z) (ns : string) (k v : bytes)
    (ef : string) (ea : list string) (b : baseKVStoreBatch) : baseKVStoreBatch :=
  mkBase (writeQueue b ++ [mkWriteInfo op ns k v ef ea]).

Definition base_Put (ns : string) (k v : bytes) (ef : string) (ea : list string)
    (b : baseKVStoreBatch) : baseKVStoreBatch :=
  batch Put ns k v ef ea b.

(** [baseKVStoreBatch.PutIfNotExists]: the second component is the returned
    [error] ([None] is Go's [nil]). *)
Definition base_PutIfNotExists (ns : string) (k v : bytes) (ef : string)
    (ea : list string) (b : baseKVStoreBatch) : baseKVStoreBatch * option error :=
  (batch PutIfNotExists ns k v ef ea b, None).

Definition base_Delete (ns : string) (k : bytes) (ef : string) (ea : list string)
    (b : baseKVStoreBatch) : baseKVStoreBatch :=
  batch Delete ns k [] ef ea b.

Definition Size (b : baseKVStoreBatch) : Z := Z.of_nat (length (writeQueue b)).

(** [Entry]: the first component is the entry pointed to ([None] is the
    [nil] pointer), the second the returned error; [errors.Wrap] of a cause
    with a message is the pair of the two. *)
Definition Entry (index : Z) (b : baseKVStoreBatch)
    : option writeInfo * option (error * string) :=
  if (index <? 0) || (index >=? Size b)
  then (None, Some (ErrInvalidDB, "index out of range"%string))
  else (writeQueue b !! Z.to_nat index, None).

Definition base_Clear (b : baseKVStoreBatch) : baseKVStoreBatch := mkBase [].

Definition CloneBatch (b : baseKVStoreBatch) : baseKVStoreBatch :=
  mkBase (writeQueue b).

(** [l[:n]].  The model keeps the length of a slice, not its capacity:
    re-slicing beyond the length is [None].  (Go panics beyond the capacity
    and would re-expose stale slots between length and capacity; a
    well-formed batch never asks for either, see [Revert_wf_defined].) *)
Definition slice_to {A} (l : list A) (n : Z) : option (list A) :=
  if (0 <=? n) && (n <=? Z.of_nat (length l))
  then Some (take (Z.to_nat n) l)
  else None.

(** [l[i]], [None] when out of range (a run-time panic). *)
Definition index {A} (l : list A) (i : Z) : option A :=
  if i <? 0 then None else l !! Z.to_nat i.

(** [truncate]: [b.writeQueue = b.writeQueue[:size]]. *)
Definition truncate (size : Z) (b : baseKVStoreBatch) : option baseKVStoreBatch :=
  q ← slice_to (writeQueue b) size; Some (mkBase q).

(** ** KVStoreCache *)

(** [hash.CacheHash], a fixed-size digest. *)
Abbreviation CacheHash := bytes.

(** The [KVStoreCache] interface and its implementation live in a file of
    package [db] that is not part of these sources.  The specification
    describes the cache as an in-memory key to value overlay where the last
    writer wins; its content is a finite map. *)
Abbreviation kvCache := (gmap CacheHash bytes).

(** A [KVStoreCache] value is a reference: [Write], [Evict] and [Clear]
    return nothing and act on the object the interface value points to, and
    assigning an interface value ([cb.KVStoreCache = cb.cacheShots[snapshot]]
    in [Revert]) copies the reference, not the object.  The cache objects live
    in a store indexed by location, and two references are the same object
    when they are the same location. *)
Abbreviation loc := nat.
Abbreviation store := (list kvCache).

(** The object a reference points to.  Every reference in a batch comes from
    [NewKVCache] or [Clone] and points into the store (see [wf]); outside the
    store the model reads an empty cache. *)
Definition deref (h : store) (l : loc) : kvCache := default ∅ (h !! l).

(** Modelled from the spec: [NewKVCache], missing from the sources, makes a
    new and empty cache object. *)
Definition NewKVCache (h : store) : store * loc := (h ++ [∅], length h).

(** Modelled from the spec: [KVStoreCache.Read], missing from the sources;
    [Get] reads from the cache and fails with not-found when the key is
    absent. *)
Definition Read (l : loc) (k : CacheHash) (h : store) : bytes * option error :=
  match deref h l !! k with
  | Some v => (v, None)
  | None => ([], Some ErrNotExist)
  end.

(** Modelled from the spec: [KVStoreCache.Write], missing from the sources;
    a put updates the cache entry, the last writer wins. *)
Definition Write (l : loc) (k : CacheHash) (v : bytes) (h : store) : store :=
  alter (insert k v) l h.

(** Modelled from the spec: [KVStoreCache.WriteIfNotExist], missing from the
    sources; it writes if the cache has no entry for the key and otherwise
    fails with already-exists. *)
Definition WriteIfNotExist (l : loc) (k : CacheHash) (v : bytes) (h : store)
    : store * option error :=
  match deref h l !! k with
  | Some _ => (h, Some ErrAlreadyExist)
  | None => (alter (insert k v) l h, None)
  end.

(** Modelled from the spec: [KVStoreCache.Evict], missing from the sources;
    a delete evicts the cache entry. *)
Definition Evict (l : loc) (k : CacheHash) (h : store) : store :=
  alter (delete k) l h.

(** Modelled from the spec: [KVStoreCache.Clear], missing from the sources;
    it empties the cache object. *)
Definition cache_Clear (l : loc) (h : store) : store :=
  alter (fun _ => ∅) l h.

(** Modelled from the spec: [KVStoreCache.Clone], missing from the sources;
    a deep copy, that is a new object with the same content. *)
Definition Clone (l : loc) (h : store) : store * loc :=
  (h ++ [deref h l], length h).

(** ** cachedBatch *)

Record cachedBatch : Type := mkCached {
  KVStoreBatch : baseKVStoreBatch;
  KVStoreCache : loc;
  tag : Z;
  batchShots : list Z;
  cacheShots : list loc
}.

(** The state the operations act on: the cache objects and the batch. *)
Record state : Type := mkState {
  caches : store;
  cb : cachedBatch
}.

Definition NewCachedBatch : state :=
  let '(h, l) := NewKVCache [] in
  mkState h (mkCached NewBatch l 0 [] []).

Section WithHash.

(** [hash.Hash160b] and [byteutil.BytesToCacheHash] belong to packages that
    are not part of these sources; nothing below depends on what they
    compute. *)
Variable Hash160b : bytes -> bytes.
Variable BytesToCacheHash : bytes -> CacheHash.

Definition bytes_of_string (s : string) : bytes := String.list_byte_of_string s.

Definition hash (ns : string) (k : bytes) : CacheHash :=
  let stream := Hash160b (bytes_of_string ns) in
  let stream := stream ++ k in
  BytesToCacheHash (Hash160b stream).

Definition cached_Put (ns : string) (k v : bytes) (ef : string) (ea : list string)
    (s : state) : state :=
  let h := hash ns k in
  let c := cb s in
  mkState (Write (KVStoreCache c) h v (caches s))
    (mkCached (batch Put ns k v ef ea (KVStoreBatch c))
       (KVStoreCache c) (tag c) (batchShots c) (cacheShots c)).

Definition cached_PutIfNotExists (ns : string) (k v : bytes) (ef : string)
    (ea : list string) (s : state) : state * option error :=
  let h := hash ns k in
  let c := cb s in
  match WriteIfNotExist (KVStoreCache c) h v (caches s) with
  | (_, Some err) => (s, Some err)
  | (caches', None) =>
      (mkState caches'
         (mkCached (batch PutIfNotExists ns k v ef ea (KVStoreBatch c))
            (KVStoreCache c) (tag c) (batchShots c) (cacheShots c)),
       None)
  end.

Definition cached_Delete (ns : string) (k : bytes) (ef : string) (ea : list string)
    (s : state) : state :=
  let h := hash ns k in
  let c := cb s in
  mkState (Evict (KVStoreCache c) h (caches s))
    (mkCached (batch Delete ns k [] ef ea (KVStoreBatch c))
       (KVStoreCache c) (tag c) (batchShots c) (cacheShots c)).

(** [Clear] (and [ClearAndUnlock], which has the same body). *)
Definition cached_Clear (s : state) : state :=
  let c := cb s in
  mkState (cache_Clear (KVStoreCache c) (caches s))
    (mkCached (base_Clear (KVStoreBatch c)) (KVStoreCache c) 0 [] []).

Definition Get (ns : string) (k : bytes) (s : state) : bytes * option error :=
  Read (KVStoreCache (cb s)) (hash ns k) (caches s).

(** [Snapshot]: the returned token is the tag before its deferred
    increment. *)
Definition Snapshot (s : state) : state * Z :=
  let c := cb s in
  let batchShots' := batchShots c ++ [Size (KVStoreBatch c)] in
  let '(caches', l) := Clone (KVStoreCache c) (caches s) in
  let cacheShots' := cacheShots c ++ [l] in
  (mkState caches'
     (mkCached (KVStoreBatch c) (KVStoreCache c) (tag c + 1) batchShots' cacheShots'),
   tag c).

(** [Revert].  [None] is a run-time panic (a slice bound or an index out of
    range); otherwise the second component is the returned [error].  The
    current cache becomes the object saved in the snapshot stack itself, not
    a copy of it. *)
Definition Revert (snapshot : Z) (s : state) : option (state * option error) :=
  let c := cb s in
  if (snapshot <? 0) || (snapshot >=? tag c)
  then Some (s, Some (Wrapf ErrInvalidDB "invalid snapshot number = %d" snapshot))
  else
    let tag' := snapshot + 1 in
    batchShots' ← slice_to (batchShots c) tag';
    size ← index batchShots' snapshot;
    base' ← truncate size (KVStoreBatch c);
    cacheShots' ← slice_to (cacheShots c) tag';
    l ← index cacheShots' snapshot;
    Some (mkState (caches s) (mkCached base' l tag' batchShots' cacheShots'), None).

(** The operations of a cached batch as data, to speak of sequences of
    them. *)
Inductive op : Type :=
  | OpPut (ns : string) (k v : bytes) (ef : string) (ea : list string)
  | OpPutIfNotExists (ns : string) (k v : bytes) (ef : string) (ea : list string)
  | OpDelete (ns : string) (k : bytes) (ef : string) (ea : list string)
  | OpSnapshot
  | OpRevert (snapshot : Z)
  | OpClear.

(** Run one operation, whatever it returns; [None] is a panic. *)
Definition run_op (o : op) (s : state) : option state :=
  match o with
  | OpPut ns k v ef ea => Some (cached_Put ns k v ef ea s)
  | OpPutIfNotExists ns k v ef ea => Some (fst (cached_PutIfNotExists ns k v ef ea s))
  | OpDelete ns k ef ea => Some (cached_Delete ns k ef ea s)
  | OpSnapshot => Some (fst (Snapshot s))
  | OpRevert t => fst <$> Revert t s
  | OpClear => Some (cached_Clear s)
  end.

Fixpoint run (os : list op) (s : state) : option state :=
  match os with
  | [] => Some s
  | o :: os' => s' ← run_op o s; run os' s'
  end.

(** The operations that leave snapshot [t] in place and do not make its
    cache the current one: writes, further snapshots, and reverts to
    snapshots taken after [t]. *)
Definition keeps (t : Z) (o : op) : bool :=
  match o with
  | OpRevert t' => t <? t'
  | OpClear => false
  | _ => true
  end.

End WithHash.

(** The write queue of a cached batch. *)
Definition queue (s : state) : list writeInfo := writeQueue (KVStoreBatch (cb s)).

(** The content of the cache the batch reads through. *)
Definition cache (s : state) : kvCache := deref (caches s) (KVStoreCache (cb s)).

(** Later entries are no smaller than earlier ones. *)
Definition ascending (l : list Z) : Prop :=
  forall (i j : nat) (x y : Z),
    (i <= j)%nat -> l !! i = Some x -> l !! j = Some y -> x <= y.

(** The shape every cached batch made by [NewCachedBatch] keeps (see
    [wf_NewCachedBatch] and [wf_run_op]): the tag counts the snapshots held,
    the two snapshot stacks go together, the recorded queue lengths ascend and
    are within the queue, and every cache reference points into the store. *)
Definition wf (s : state) : Prop :=
  tag (cb s) = Z.of_nat (length (batchShots (cb s)))
  /\ length (cacheShots (cb s)) = length (batchShots (cb s))
  /\ Forall (fun n => 0 <= n <= Size (KVStoreBatch (cb s))) (batchShots (cb s))
  /\ ascending (batchShots (cb s))
  /\ Forall (fun l => (l < length (caches s))%nat) (cacheShots (cb s))
  /\ (KVStoreCache (cb s) < length (caches s))%nat.

(** The entry a write operation stages. *)
Definition entry_of (o : op) : option writeInfo :=
  match o with
  | OpPut ns k v ef ea => Some (mkWriteInfo Put ns k v ef ea)
  | OpPutIfNotExists ns k v ef ea => Some (mkWriteInfo PutIfNotExists ns k v ef ea)
  | OpDelete ns k ef ea => Some (mkWriteInfo Delete ns k [] ef ea)
  | _ => None
  end.

(** The operations [Put] and [Delete], which always go through. *)
Definition is_write (o : op) : bool :=
  match o with
  | OpPut _ _ _ _ _ | OpDelete _ _ _ _ => true
  | _ => false
  end.

(** A snapshot with index [n], of queue [q1] and cache content [m1], whose
    copy of the cache is the object [L] and after which the two snapshot
    stacks were [bs1] and [cs1], is still held by [s]: the stacks still begin
    with [bs1] and [cs1], the queue still begins with [q1], and the copy of
    the cache is untouched, is not the current cache and is not the copy of a
    later snapshot. *)
Definition keeps_snapshot (n : nat) (L : loc) (q1 : list writeInfo) (m1 : kvCache)
    (bs1 : list Z) (cs1 : list loc) (s : state) : Prop :=
  wf s
  /\ take (S n) (batchShots (cb s)) = bs1
  /\ take (S n) (cacheShots (cb s)) = cs1
  /\ (exists extra, queue s = q1 ++ extra)
  /\ deref (caches s) L = m1
  /\ KVStoreCache (cb s) <> L
  /\ (forall (j : nat) (l : loc),
        (n < j)%nat -> cacheShots (cb s) !! j = Some l -> l <> L).

End Batch.

(** * endorsement/endorsementset.go *)

Module Endorsement.

Inductive error : Type :=
  | ErrExpiredEndorsement
  | ErrInvalidHash
  | ErrInvalidEndorsement.

(** [ConsensusVoteTopic], the [EndorsePb] enumeration. *)
Inductive ConsensusVoteTopic : Type := PROPOSAL | LOCK | COMMIT.

#[global] Instance ConsensusVoteTopic_eq_dec : EqDecision ConsensusVoteTopic.
Proof. solve_decision. Defined.

Record ConsensusVote : Type := mkVote {
  BlkHash : bytes;
  Height : N;
  Round : N;
  Topic : ConsensusVoteTopic
}.

(** [Endorsement]: the type itself is declared in a file that is not part of
    these sources; the fields are those of the [EndorsePb] message, and
    [Endorser] and [ConsensusVote] are the accessors the set uses. *)
Record Endorsement : Type := mkEndorsement {
  endorser : string;
  endorserPubKey : bytes;
  vote : ConsensusVote;
  decision : bool;
  signature : bytes
}.

Definition Endorser (e : Endorsement) : string := endorser e.

(** [Set] is a reserved word here, hence the name. *)
Record EndorsementSet : Type := mkSet {
  blkHash : bytes;
  round : N;
  endorsements : list Endorsement
}.

Definition NewSet (blkHash : bytes) : EndorsementSet := mkSet blkHash 0%N [].

Definition BlockHash (s : EndorsementSet) : bytes := blkHash s.

Definition SetRound (r : N) (s : EndorsementSet) : EndorsementSet :=
  mkSet (blkHash s) r (endorsements s).

(** What one run of the [for i, e := range s.endorsements] loop of
    [AddEndorsement] ends in. *)
Inductive scan_result : Type :=
  | Replaced (es : list Endorsement)
  | Expired
  | NotFound.

(** The loop body, entry by entry: the two [continue]s skip entries of
    another endorser or topic; the first entry of the same endorser and topic
    decides. *)
Fixpoint scan (en : Endorsement) (es : list Endorsement) : scan_result :=
  match es with
  | [] => NotFound
  | e :: rest =>
      if bool_decide (Endorser e ≠ Endorser en)
         || bool_decide (Topic (vote e) ≠ Topic (vote en))
      then match scan en rest with
           | Replaced rest' => Replaced (e :: rest')
           | Expired => Expired
           | NotFound => NotFound
           end
      else if (Round (vote e) <? Round (vote en))%N
      then Replaced (en :: rest)
      else Expired
  end.

Section WithSignatures.

(** [Endorsement.VerifySignature] is a method of the missing file as well
    and checks a signature with the node's cryptography; it enters as a
    predicate. *)
Variable VerifySignature : Endorsement -> bool.

Definition AddEndorsement (en : Endorsement) (s : EndorsementSet)
    : EndorsementSet * option error :=
  if negb (bool_decide (BlkHash (vote en) = blkHash s))
  then (s, Some ErrInvalidHash)
  else if negb (VerifySignature en)
  then (s, Some ErrInvalidEndorsement)
  else match scan en (endorsements s) with
       | Replaced es' => (mkSet (blkHash s) (round s) es', None)
       | Expired => (s, Some ErrExpiredEndorsement)
       | NotFound => (mkSet (blkHash s) (round s) (endorsements s ++ [en]), None)
       end.

(** A sequence of [AddEndorsement] calls; the second component lists what
    each call returned, in call order. *)
Fixpoint AddAll (ens : list Endorsement) (s : EndorsementSet)
    : EndorsementSet * list (option error) :=
  match ens with
  | [] => (s, [])
  | en :: rest =>
      let '(s1, r) := AddEndorsement en s in
      let '(s2, rs) := AddAll rest s1 in
      (s2, r :: rs)
  end.

End WithSignatures.

(** [e] is an endorsement of endorser [a] on topic [t]. *)
Definition for_pair (a : string) (t : ConsensusVoteTopic) (e : Endorsement) : bool :=
  bool_decide (Endorser e = a) && bool_decide (Topic (vote e) = t).

(** The endorsements a set retains for a pair. *)
Definition retained (a : string) (t : ConsensusVoteTopic) (s : EndorsementSet)
    : list Endorsement :=
  List.filter (for_pair a t) (endorsements s).

(** The rounds of the calls for a pair that returned no error. *)
Fixpoint added_rounds (a : string) (t : ConsensusVoteTopic)
    (ens : list Endorsement) (rs : list (option error)) : list N :=
  match ens, rs with
  | en :: ens', r :: rs' =>
      if for_pair a t en && bool_decide (r = None)
      then Round (vote en) :: added_rounds a t ens' rs'
      else added_rounds a t ens' rs'
  | _, _ => []
  end.

Definition max_round (rounds : list N) : N := foldr N.max 0%N rounds.

(** The invariant of the data model: at most one endorsement per
    (endorser, topic). *)
Definition one_per_pair (s : EndorsementSet) : Prop :=
  forall a t, (length (retained a t s) <= 1)%nat.

(** The rounds one call adds to the tally of a pair. *)
Definition added_by (a : string) (t : ConsensusVoteTopic)
    (en : Endorsement) (r : option error) : list N :=
  if for_pair a t en && bool_decide (r = None) then [Round (vote en)] else [].

(** [prev a t] lists the rounds added so far without error for endorser [a]
    and topic [t]; the set keeps, for each pair, nothing when nothing was
    added and else one endorsement, of the highest of those rounds. *)
Definition tallied (prev : string -> ConsensusVoteTopic -> list N)
    (s : EndorsementSet) : Prop :=
  forall a t,
    match retained a t s with
    | [] => prev a t = []
    | [e] => prev a t ≠ [] /\ Round (vote e) = max_round (prev a t)
    | _ => False
    end.

(** ** NumOfValidEndorsements *)

(** The topics by their values in the [EndorsePb] enumeration. *)
#[global] Instance ConsensusVoteTopic_countable : Countable ConsensusVoteTopic.
Proof.
  refine (inj_countable'
            (fun t => match t with PROPOSAL => 0 | LOCK => 1 | COMMIT => 2 end)%nat
            (fun n => match n with 0 => PROPOSAL | 1 => LOCK | _ => COMMIT end)%nat _).
  by intros [].
Defined.

(** The loop of [NumOfValidEndorsements] over the endorsements: an
    endorsement whose topic is no key of [topics] or whose endorser is no key
    of [endorserSet] is passed over; any other takes its endorser out of
    [endorserSet] and counts.  Both maps are tested for the key alone, not
    for the value under it. *)
Fixpoint count_valid (topics : gmap ConsensusVoteTopic bool)
    (endorserSet : gmap string bool) (cnt : Z) (es : list Endorsement) : Z :=
  match es with
  | [] => cnt
  | endorsement :: rest =>
      match topics !! Topic (vote endorsement) with
      | None => count_valid topics endorserSet cnt rest
      | Some _ =>
          match endorserSet !! endorser endorsement with
          | None => count_valid topics endorserSet cnt rest
          | Some _ =>
              count_valid topics (delete (endorser endorsement) endorserSet)
                (cnt + 1) rest
          end
      end
  end.

(** [NumOfValidEndorsements].  The count is an [int] that stays below the
    number of endorsements, so it does not wrap. *)
Definition NumOfValidEndorsements (topics : gmap ConsensusVoteTopic bool)
    (endorsers : list string) (s : EndorsementSet) : Z :=
  let endorserSet :=
    foldl (fun m endorser => <[endorser := true]> m) (∅ : gmap string bool) endorsers in
  count_valid topics endorserSet 0 (endorsements s).

(** The endorsers that have, among [es], an endorsement on a topic that is
    a key of [topics]. *)
Fixpoint voters (topics : gmap ConsensusVoteTopic bool) (es : list Endorsement)
    : gset string :=
  match es with
  | [] => ∅
  | e :: rest =>
      match topics !! Topic (vote e) with
      | Some _ => {[endorser e]} ∪ voters topics rest
      | None => voters topics rest
      end
  end.

(** ** FromProto and ToProto *)

Section WithProto.

(** The generated message type [EndorsePb] and the conversions
    [FromProtoMsg] and [Endorsement.ToProtoMsg] are declared outside these
    sources; nothing is assumed of them here.  [convError] is what
    [FromProtoMsg] returns as its error. *)
Variable EndorsePb : Type.
Variable convError : Type.
Variable FromProtoMsg : EndorsePb -> Endorsement + convError.
Variable ToProtoMsg : Endorsement -> EndorsePb.

(** The [EndorsementSet] message. *)
Record EndorsementSetPb : Type := mkSetPb {
  pbBlockHash : bytes;
  pbRound : N;
  pbEndorsements : list EndorsePb
}.

(** The loop of [FromProto]: it stops at the first message that does not
    convert, with the endorsements converted so far in place. *)
Fixpoint from_loop (pbs : list EndorsePb) (acc : list Endorsement)
    : list Endorsement * option convError :=
  match pbs with
  | [] => (acc, None)
  | ePb :: rest =>
      match FromProtoMsg ePb with
      | inr err => (acc, Some err)
      | inl en => from_loop rest (acc ++ [en])
      end
  end.

(** [FromProto]: the three fields of the receiver are overwritten before and
    while the endorsements are converted. *)
Definition FromProto (sPb : EndorsementSetPb) (s : EndorsementSet)
    : EndorsementSet * option convError :=
  let '(es, err) := from_loop (pbEndorsements sPb) [] in
  (mkSet (pbBlockHash sPb) (pbRound sPb) es, err).

Definition ToProto (s : EndorsementSet) : EndorsementSetPb :=
  mkSetPb (blkHash s) (round s) (ToProtoMsg <$> endorsements s).

End WithProto.

End Endorsement.

(** * blocksync/worker.go *)

Module BlockSync.

(** A peer, as the neighbours handler returns it: a network address. *)
Abbreviation peer := string.

Record syncBlocksInterval : Type := mkInterval {
  Start : N;
  End_ : N
}.

(** The [BlockSync] request message. *)
Record BlockSyncPb : Type := mkBlockSync {
  pbStart : N;
  pbEnd : N
}.

(** What a tick sees of the collaborators it calls: the peer list the
    neighbours handler returns and the intervals the buffer computes for a
    target height.  (The unicast handler's error is only logged and the loop
    goes on, so it leaves no trace in the worker.) *)
Record handlers : Type := mkHandlers {
  neighborsHandler : list peer;
  GetBlocksIntervalsToSync : N -> list syncBlocksInterval
}.

Record syncWorker : Type := mkWorker {
  chainID : N;
  targetHeight : N;
  rrIdx : Z
}.

Definition newSyncWorker (chainID : N) : syncWorker := mkWorker chainID 0%N 0.

Definition SetTargetHeight (h : N) (w : syncWorker) : syncWorker :=
  if (targetHeight w <? h)%N
  then mkWorker (chainID w) h (rrIdx w)
  else w.

(** One call of the unicast handler. *)
Record unicast : Type := mkUnicast {
  to : peer;
  request : BlockSyncPb
}.

(** The [for _, interval := range intervals] loop of [Sync]: the index is
    reduced with Go's [%] (the remainder that truncates towards zero), the
    peer is read at it ([None] is the index-out-of-range panic), the request
    goes out and the index moves on.  [sent] collects the unicast calls. *)
Fixpoint sync_loop (peers : list peer) (intervals : list syncBlocksInterval)
    (rrIdx : Z) (sent : list unicast) : option (Z * list unicast) :=
  match intervals with
  | [] => Some (rrIdx, sent)
  | interval :: rest =>
      let rrIdx := Z.rem rrIdx (Z.of_nat (length peers)) in
      p ← (if rrIdx <? 0 then None else peers !! Z.to_nat rrIdx);
      let sent := sent ++ [mkUnicast p (mkBlockSync (Start interval) (End_ interval))] in
      sync_loop peers rest (rrIdx + 1) sent
  end.

(** [Sync]: the worker after the tick and the unicast calls it made. *)
Definition Sync (env : handlers) (w : syncWorker) : option (syncWorker * list unicast) :=
  let peers := neighborsHandler env in
  if bool_decide (length peers = 0%nat)
  then Some (w, [])
  else
    let intervals := GetBlocksIntervalsToSync env (targetHeight w) in
    '(rrIdx', sent) ← sync_loop peers intervals (rrIdx w) [];
    Some (mkWorker (chainID w) (targetHeight w) rrIdx', sent).

(** ** Runs of a worker *)

(** What is done to a worker between its creation and its end: a target
    height is set, or the recurring task ticks, with the collaborators as
    they are at that tick. *)
Inductive event : Type :=
  | DoSetTargetHeight (h : N)
  | DoSync (env : handlers).

Definition do (e : event) (w : syncWorker) : option syncWorker :=
  match e with
  | DoSetTargetHeight h => Some (SetTargetHeight h w)
  | DoSync env => fst <$> Sync env w
  end.

Fixpoint run (es : list event) (w : syncWorker) : option syncWorker :=
  match es with
  | [] => Some w
  | e :: es' => w' ← do e w; run es' w'
  end.

(** The target heights set in a run, latest first. *)
Fixpoint heights (es : list event) : list N :=
  match es with
  | [] => []
  | DoSetTargetHeight h :: es' => heights es' ++ [h]
  | DoSync _ :: es' => heights es'
  end.

End BlockSync.

(** * dispatcher/dispatcher.go *)

Module Dispatcher.

(** ** Messages *)

(** The message type codes of package [proto] that the dispatcher names.
    Their numeric values are declared outside these sources; the dispatcher
    only compares them, so they are kept as an enumeration, with
    [MsgOtherType] for every other code. *)
Inductive MsgType : Type :=
  | MsgBlockProtoMsgType
  | MsgBlockSyncReqType
  | MsgBlockSyncDataType
  | MsgActionType
  | MsgConsensusType
  | MsgOtherType (code : N).

#[global] Instance MsgType_eq_dec : EqDecision MsgType.
Proof. solve_decision. Defined.

(** A numbering of the enumeration, to use it as the key type of a map; it
    is not the wire value of the codes. *)
Definition MsgType_encode (t : MsgType) : N :=
  match t with
  | MsgBlockProtoMsgType => 0
  | MsgBlockSyncReqType => 1
  | MsgBlockSyncDataType => 2
  | MsgActionType => 3
  | MsgConsensusType => 4
  | MsgOtherType code => 5 + code
  end%N.

Definition MsgType_decode (n : N) : MsgType :=
  if (n =? 0)%N then MsgBlockProtoMsgType
  else if (n =? 1)%N then MsgBlockSyncReqType
  else if (n =? 2)%N then MsgBlockSyncDataType
  else if (n =? 3)%N then MsgActionType
  else if (n =? 4)%N then MsgConsensusType
  else MsgOtherType (n - 5)%N.

#[global] Program Instance MsgType_countable : Countable MsgType :=
  inj_countable' MsgType_encode MsgType_decode _.
Next Obligation.
  intros [| | | | |code]; try reflexivity.
  unfold MsgType_encode, MsgType_decode.
  repeat match goal with
         | |- context [(?a =? ?b)%N] => destruct (N.eqb_spec a b); [lia|]
         end.
  f_equal. lia.
Qed.

(** The payloads are handed on unread; they are kept as their wire bytes. *)
Abbreviation ActionPb := bytes.
Abbreviation BlockPb := bytes.
Abbreviation ConsensusPb := bytes.

Record BlockSync : Type := mkBlockSync {
  Start : N;
  End_ : N
}.

(** A [proto.Message] by its dynamic type. *)
Inductive Message : Type :=
  | MAction (a : ActionPb)
  | MBlock (b : BlockPb)
  | MBlockSync (s : BlockSync)
  | MBlockContainer (Block : BlockPb)
  | MConsensus (c : ConsensusPb)
  | MOther (body : bytes).

(** Modelled from the spec: [pb.GetTypeFromProtoMsg] is declared outside
    these sources.  The specification has the envelope type discriminated by
    an integer type code, one per kind of message; a message of no known kind
    gives an error beside the code. *)
Definition GetTypeFromProtoMsg (m : Message) : MsgType * bool :=
  match m with
  | MAction _ => (MsgActionType, false)
  | MBlock _ => (MsgBlockProtoMsgType, false)
  | MBlockSync _ => (MsgBlockSyncReqType, false)
  | MBlockContainer _ => (MsgBlockSyncDataType, false)
  | MConsensus _ => (MsgConsensusType, false)
  | MOther _ => (MsgOtherType 0, true)
  end.

(** ** Events *)

Record actionMsg : Type := mkActionMsg {
  a_chainID : N;
  action : ActionPb
}.

Record blockMsg : Type := mkBlockMsg {
  b_chainID : N;
  block : BlockPb;
  blkType : MsgType
}.

Record blockSyncMsg : Type := mkBlockSyncMsg {
  s_chainID : N;
  sender : string;
  sync : BlockSync
}.

(** What travels on [eventChan] (a [chan interface{}]); [EvOther] is any
    value of another type. *)
Inductive event : Type :=
  | EvAction (m : actionMsg)
  | EvBlock (m : blockMsg)
  | EvBlockSync (m : blockSyncMsg)
  | EvOther.

(** ** Subscribers *)

(** A [Subscriber] is an object outside the dispatcher; it is known here by
    its identity, and every call of one of its methods is recorded. *)
Abbreviation Subscriber := nat.

Inductive call : Type :=
  | HandleAction (sub : Subscriber) (a : ActionPb)
  | HandleBlock (sub : Subscriber) (b : BlockPb)
  | HandleBlockSync (sub : Subscriber) (b : BlockPb)
  | HandleSyncRequest (sub : Subscriber) (sender : string) (s : BlockSync)
  | HandleConsensusMsg (sub : Subscriber) (c : ConsensusPb).

(** The log lines of the functions below. *)
Inductive logline : Type :=
  | WarnEventChanFull
  | WarnUnexpectedMessage
  | WarnChainNotRegistered (chainID : N)
  | WarnUnexpectedMsgType (t : MsgType)
  | WarnInvalidMessageType
  | WarnAlreadyShuttingDown
  | InfoNoSubscriber (chainID : N)
  | InfoStarting
  | InfoShuttingDown
  | InfoHandlerDone
  | InfoReceiveBlockSync (m : blockSyncMsg)
  | DebugHandleActionError
  | ErrorHandleBlock
  | ErrorSyncBlock
  | ErrorHandleSyncRequest
  | ErrorHandleBlockPropose.

(** ** The dispatcher *)

(** One goroutine started by [enqueueEvent]: before its test of the channel
    length, or past it and at the channel send. *)
Inductive goroutine : Type :=
  | AtCheck (ev : event)
  | AtSend (ev : event).

(** [IotxDispatcher].  [eventChan] is the content of the buffered channel,
    oldest first, and [eventChanCap] its capacity; [quit] tells whether the
    quit channel is closed and [running] whether the goroutine of
    [newsHandler] is in its loop.  Beside the fields of the struct stand what
    the dispatcher does to its surroundings: the enqueue goroutines in
    flight, the subscriber calls made, the log, and the number of increments
    of the request counter labelled (AddAction, false). *)
Record IotxDispatcher : Type := mkDispatcher {
  started : Z;
  shutdown : Z;
  eventChan : list event;
  eventChanCap : nat;
  eventAudit : gmap MsgType Z;
  quit : bool;
  running : bool;
  subscribers : gmap N Subscriber;
  goroutines : list goroutine;
  calls : list call;
  logs : list logline;
  requestMtc : N
}.

Definition set_started (x : Z) (d : IotxDispatcher) : IotxDispatcher :=
  mkDispatcher x (shutdown d) (eventChan d) (eventChanCap d) (eventAudit d)
    (quit d) (running d) (subscribers d) (goroutines d) (calls d) (logs d) (requestMtc d).

Definition set_shutdown (x : Z) (d : IotxDispatcher) : IotxDispatcher :=
  mkDispatcher (started d) x (eventChan d) (eventChanCap d) (eventAudit d)
    (quit d) (running d) (subscribers d) (goroutines d) (calls d) (logs d) (requestMtc d).

Definition set_eventChan (x : list event) (d : IotxDispatcher) : IotxDispatcher :=
  mkDispatcher (started d) (shutdown d) x (eventChanCap d) (eventAudit d)
    (quit d) (running d) (subscribers d) (goroutines d) (calls d) (logs d) (requestMtc d).

Definition set_eventAudit (x : gmap MsgType Z) (d : IotxDispatcher) : IotxDispatcher :=
  mkDispatcher (started d) (shutdown d) (eventChan d) (eventChanCap d) x
    (quit d) (running d) (subscribers d) (goroutines d) (calls d) (logs d) (requestMtc d).

Definition set_quit (x : bool) (d : IotxDispatcher) : IotxDispatcher :=
  mkDispatcher (started d) (shutdown d) (eventChan d) (eventChanCap d) (eventAudit d)
    x (running d) (subscribers d) (goroutines d) (calls d) (logs d) (requestMtc d).

Definition set_running (x : bool) (d : IotxDispatcher) : IotxDispatcher :=
  mkDispatcher (started d) (shutdown d) (eventChan d) (eventChanCap d) (eventAudit d)
    (quit d) x (subscribers d) (goroutines d) (calls d) (logs d) (requestMtc d).

Definition set_subscribers (x : gmap N Subscriber) (d : IotxDispatcher) : IotxDispatcher :=
  mkDispatcher (started d) (shutdown d) (eventChan d) (eventChanCap d) (eventAudit d)
    (quit d) (running d) x (goroutines d) (calls d) (logs d) (requestMtc d).

Definition set_goroutines (x : list goroutine) (d : IotxDispatcher) : IotxDispatcher :=
  mkDispatcher (started d) (shutdown d) (eventChan d) (eventChanCap d) (eventAudit d)
    (quit d) (running d) (subscribers d) x (calls d) (logs d) (requestMtc d).

Definition set_calls (x : list call) (d : IotxDispatcher) : IotxDispatcher :=
  mkDispatcher (started d) (shutdown d) (eventChan d) (eventChanCap d) (eventAudit d)
    (quit d) (running d) (subscribers d) (goroutines d) x (logs d) (requestMtc d).

Definition set_requestMtc (x : N) (d : IotxDispatcher) : IotxDispatcher :=
  mkDispatcher (started d) (shutdown d) (eventChan d) (eventChanCap d) (eventAudit d)
    (quit d) (running d) (subscribers d) (goroutines d) (calls d) (logs d) x.

Definition log (l : logline) (d : IotxDispatcher) : IotxDispatcher :=
  mkDispatcher (started d) (shutdown d) (eventChan d) (eventChanCap d) (eventAudit d)
    (quit d) (running d) (subscribers d) (goroutines d) (calls d) (logs d ++ [l]) (requestMtc d).

(** Go's [int32] and [int] additions wrap around. *)
Definition wrap_int32 (z : Z) : Z := (z + 2 ^ 31) mod 2 ^ 32 - 2 ^ 31.
Definition wrap_int (z : Z) : Z := (z + 2 ^ 63) mod 2 ^ 64 - 2 ^ 63.

Definition NewDispatcher (EventChanSize : nat) : IotxDispatcher :=
  mkDispatcher 0 0 [] EventChanSize ∅ false false ∅ [] [] [] 0%N.

Definition AddSubscriber (chainID : N) (subscriber : Subscriber)
    (d : IotxDispatcher) : IotxDispatcher :=
  set_subscribers (<[chainID := subscriber]> (subscribers d)) d.

(** [Start]: [true] stands for the error of a dispatcher already started. *)
Definition Start_ (d : IotxDispatcher) : IotxDispatcher * bool :=
  let d := set_started (wrap_int32 (started d + 1)) d in
  if bool_decide (started d ≠ 1)
  then (d, true)
  else (set_running true (log InfoStarting d), false).

(** [Stop] up to its wait for the handler goroutine; what it waits for is
    the step [newsHandler_quit]. *)
Definition Stop (d : IotxDispatcher) : IotxDispatcher :=
  let d := set_shutdown (wrap_int32 (shutdown d + 1)) d in
  if bool_decide (shutdown d ≠ 1)
  then log WarnAlreadyShuttingDown d
  else set_quit true (log InfoShuttingDown d).

(** [m[t]++] on a map of counters; a missing key reads as zero. *)
Definition bump (t : MsgType) (audit : gmap MsgType Z) : gmap MsgType Z :=
  <[t := wrap_int (default 0 (audit !! t) + 1)]> audit.

(** [updateEventAudit]: [d.eventAudit[t]++]. *)
Definition updateEventAudit (t : MsgType) (d : IotxDispatcher) : IotxDispatcher :=
  set_eventAudit (bump t (eventAudit d)) d.

(** [EventAudit]: a copy of the audit map. *)
Definition EventAudit (d : IotxDispatcher) : gmap MsgType Z := eventAudit d.

(** ** Enqueueing *)

(** [enqueueEvent] only starts a goroutine and returns. *)
Definition enqueueEvent (ev : event) (d : IotxDispatcher) : IotxDispatcher :=
  set_goroutines (goroutines d ++ [AtCheck ev]) d.

(** The goroutine's test [len(d.eventChan) == cap(d.eventChan)]. *)
Definition goroutine_check (i : nat) (d : IotxDispatcher) : option IotxDispatcher :=
  match goroutines d !! i with
  | Some (AtCheck ev) =>
      if bool_decide (length (eventChan d) = eventChanCap d)
      then Some (log WarnEventChanFull (set_goroutines (delete i (goroutines d)) d))
      else Some (set_goroutines (<[i := AtSend ev]> (goroutines d)) d)
  | _ => None
  end.

(** The goroutine's send [d.eventChan <- event]: it goes through when the
    channel has room and is blocked ([None]) when it has none. *)
Definition goroutine_send (i : nat) (d : IotxDispatcher) : option IotxDispatcher :=
  match goroutines d !! i with
  | Some (AtSend ev) =>
      if bool_decide (length (eventChan d) < eventChanCap d)%nat
      then Some (set_eventChan (eventChan d ++ [ev])
                   (set_goroutines (delete i (goroutines d)) d))
      else None
  | _ => None
  end.

Definition dispatchAction (chainID : N) (msg : Message) (d : IotxDispatcher)
    : option IotxDispatcher :=
  if bool_decide (shutdown d ≠ 0) then Some d
  else match msg with
       | MAction a => Some (enqueueEvent (EvAction (mkActionMsg chainID a)) d)
       | _ => None
       end.

Definition dispatchBlockCommit (chainID : N) (msg : Message) (d : IotxDispatcher)
    : option IotxDispatcher :=
  if bool_decide (shutdown d ≠ 0) then Some d
  else match msg with
       | MBlock b => Some (enqueueEvent (EvBlock (mkBlockMsg chainID b MsgBlockProtoMsgType)) d)
       | _ => None
       end.

Definition dispatchBlockSyncReq (chainID : N) (sender : string) (msg : Message)
    (d : IotxDispatcher) : option IotxDispatcher :=
  if bool_decide (shutdown d ≠ 0) then Some d
  else match msg with
       | MBlockSync s => Some (enqueueEvent (EvBlockSync (mkBlockSyncMsg chainID sender s)) d)
       | _ => None
       end.

Definition dispatchBlockSyncData (chainID : N) (msg : Message) (d : IotxDispatcher)
    : option IotxDispatcher :=
  if bool_decide (shutdown d ≠ 0) then Some d
  else match msg with
       | MBlockContainer b =>
           Some (enqueueEvent (EvBlock (mkBlockMsg chainID b MsgBlockSyncDataType)) d)
       | _ => None
       end.

Section WithSubscribers.

(** Whether a subscriber call returns an error, given the calls made before
    it.  The dispatcher only logs and counts such an error. *)
Variable returnsError : list call -> call -> bool.

(** Make a subscriber call: record it and tell whether it failed. *)
Definition invoke (c : call) (d : IotxDispatcher) : IotxDispatcher * bool :=
  (set_calls (calls d ++ [c]) d, returnsError (calls d) c).

(** ** The event loop *)

Definition handleActionMsg (m : actionMsg) (d : IotxDispatcher) : IotxDispatcher :=
  let d := updateEventAudit MsgActionType d in
  match subscribers d !! a_chainID m with
  | Some subscriber =>
      let '(d, err) := invoke (HandleAction subscriber (action m)) d in
      if err
      then log DebugHandleActionError (set_requestMtc (requestMtc d + 1)%N d)
      else d
  | None => log (InfoNoSubscriber (a_chainID m)) d
  end.

Definition handleBlockMsg (m : blockMsg) (d : IotxDispatcher) : IotxDispatcher :=
  match subscribers d !! b_chainID m with
  | Some subscriber =>
      if bool_decide (blkType m = MsgBlockProtoMsgType) then
        let d := updateEventAudit MsgBlockProtoMsgType d in
        let '(d, err) := invoke (HandleBlock subscriber (block m)) d in
        if err then log ErrorHandleBlock d else d
      else if bool_decide (blkType m = MsgBlockSyncDataType) then
        let d := updateEventAudit MsgBlockSyncDataType d in
        let '(d, err) := invoke (HandleBlockSync subscriber (block m)) d in
        if err then log ErrorSyncBlock d else d
      else d
  | None => log (InfoNoSubscriber (b_chainID m)) d
  end.

Definition handleBlockSyncMsg (m : blockSyncMsg) (d : IotxDispatcher) : IotxDispatcher :=
  let d := log (InfoReceiveBlockSync m) d in
  let d := updateEventAudit MsgBlockSyncReqType d in
  match subscribers d !! s_chainID m with
  | Some subscriber =>
      let '(d, err) := invoke (HandleSyncRequest subscriber (sender m) (sync m)) d in
      if err then log ErrorHandleSyncRequest d else d
  | None => log (InfoNoSubscriber (s_chainID m)) d
  end.

(** The [switch msg := m.(type)] of [newsHandler]. *)
Definition handle_event (m : event) (d : IotxDispatcher) : IotxDispatcher :=
  match m with
  | EvAction msg => handleActionMsg msg d
  | EvBlock msg => handleBlockMsg msg d
  | EvBlockSync msg => handleBlockSyncMsg msg d
  | EvOther => log WarnInvalidMessageType d
  end.

(** One turn of the loop of [newsHandler] through [case m := <-d.eventChan]:
    the oldest event leaves the channel and is handled.  [None] when the
    handler is not running or the channel is empty. *)
Definition newsHandler_receive (d : IotxDispatcher) : option IotxDispatcher :=
  if running d
  then match eventChan d with
       | m :: rest => Some (handle_event m (set_eventChan rest d))
       | [] => None
       end
  else None.

(** One turn through [case <-d.quit]: the loop ends. *)
Definition newsHandler_quit (d : IotxDispatcher) : option IotxDispatcher :=
  if running d && quit d
  then Some (log InfoHandlerDone (set_running false d))
  else None.

(** ** The entry points *)

(** [HandleBroadcast].  [None] is the panic of a failed type assertion. *)
Definition HandleBroadcast (chainID : N) (message : Message) (d : IotxDispatcher)
    : option IotxDispatcher :=
  let '(msgType, err) := GetTypeFromProtoMsg message in
  let d := if err then log WarnUnexpectedMessage d else d in
  match subscribers d !! chainID with
  | None => Some (log (WarnChainNotRegistered chainID) d)
  | Some subscriber =>
      match msgType with
      | MsgConsensusType =>
          match message with
          | MConsensus c =>
              let '(d, err) := invoke (HandleConsensusMsg subscriber c) d in
              Some (if err then log ErrorHandleBlockPropose d else d)
          | _ => None
          end
      | MsgActionType => dispatchAction chainID message d
      | MsgBlockProtoMsgType => dispatchBlockCommit chainID message d
      | _ => Some (log (WarnUnexpectedMsgType msgType) d)
      end
  end.

(** [HandleTell]; [sender] is the sender's address already in its string
    form. *)
Definition HandleTell (chainID : N) (sender : string) (message : Message)
    (d : IotxDispatcher) : option IotxDispatcher :=
  let '(msgType, err) := GetTypeFromProtoMsg message in
  let d := if err then log WarnUnexpectedMessage d else d in
  match msgType with
  | MsgBlockSyncReqType => dispatchBlockSyncReq chainID sender message d
  | MsgBlockSyncDataType => dispatchBlockSyncData chainID message d
  | _ => Some (log (WarnUnexpectedMsgType msgType) d)
  end.

(** ** Runs of the dispatcher *)

(** One atomic action of some thread: a call of a public operation, a move
    of an enqueue goroutine, or a turn of the event loop. *)
Inductive step : IotxDispatcher -> IotxDispatcher -> Prop :=
  | step_AddSubscriber chainID sub d :
      step d (AddSubscriber chainID sub d)
  | step_Start d :
      step d (fst (Start_ d))
  | step_Stop d :
      step d (Stop d)
  | step_HandleBroadcast chainID message d d' :
      HandleBroadcast chainID message d = Some d' -> step d d'
  | step_HandleTell chainID sender message d d' :
      HandleTell chainID sender message d = Some d' -> step d d'
  | step_check i d d' :
      goroutine_check i d = Some d' -> step d d'
  | step_send i d d' :
      goroutine_send i d = Some d' -> step d d'
  | step_receive d d' :
      newsHandler_receive d = Some d' -> step d d'
  | step_quit d d' :
      newsHandler_quit d = Some d' -> step d d'.

(** The states a dispatcher created with the given channel size can be in. *)
Inductive reachable (EventChanSize : nat) : IotxDispatcher -> Prop :=
  | reachable_new : reachable EventChanSize (NewDispatcher EventChanSize)
  | reachable_step d d' :
      reachable EventChanSize d -> step d d' -> reachable EventChanSize d'.

End WithSubscribers.

(** ** Delivery *)

(** The event a goroutine of [enqueueEvent] carries. *)
Definition event_of (g : goroutine) : event :=
  match g with
  | AtCheck ev => ev
  | AtSend ev => ev
  end.

(** An action event or a new-block event whose chain has a subscriber; the
    other events are not concerned. *)
Definition registered (subs : gmap N Subscriber) (ev : event) : Prop :=
  match ev with
  | EvAction m => is_Some (subs !! a_chainID m)
  | EvBlock m => blkType m = MsgBlockProtoMsgType -> is_Some (subs !! b_chainID m)
  | _ => True
  end.

(** The subscriber call that handling an event makes, if it makes one. *)
Definition call_of (subs : gmap N Subscriber) (ev : event) : option call :=
  match ev with
  | EvAction m =>
      subscriber ← subs !! a_chainID m;
      Some (HandleAction subscriber (action m))
  | EvBlock m =>
      subscriber ← subs !! b_chainID m;
      if bool_decide (blkType m = MsgBlockProtoMsgType)
      then Some (HandleBlock subscriber (block m))
      else if bool_decide (blkType m = MsgBlockSyncDataType)
      then Some (HandleBlockSync subscriber (block m))
      else None
  | EvBlockSync m =>
      subscriber ← subs !! s_chainID m;
      Some (HandleSyncRequest subscriber (sender m) (sync m))
  | EvOther => None
  end.

Definition is_HandleBlock (c : call) : bool :=
  match c with HandleBlock _ _ => true | _ => false end.

Definition is_HandleBlockSync (c : call) : bool :=
  match c with HandleBlockSync _ _ => true | _ => false end.

(** The number of calls of one kind among the calls made. *)
Definition count (kind : call -> bool) (cs : list call) : Z :=
  Z.of_nat (length (List.filter kind cs)).

(** A counter of the audit map as Go reads it: zero for a missing key. *)
Definition audit (t : MsgType) (d : IotxDispatcher) : Z :=
  default 0 (EventAudit d !! t).

Section Turns.
Variable returnsError : list call -> call -> bool.

(** [n] turns of the loop of [newsHandler] through its receive case, with no
    other thread moving in between. *)
Fixpoint newsHandler_turns (n : nat) (d : IotxDispatcher) : option IotxDispatcher :=
  match n with
  | O => Some d
  | S n' => d' ← newsHandler_receive returnsError d; newsHandler_turns n' d'
  end.

End Turns.

(** ** Invariants of a run *)

(** The block counters of the audit map agree with the subscriber calls
    made. *)
Definition blocks_counted (d : IotxDispatcher) : Prop :=
  audit MsgBlockProtoMsgType d = wrap_int (count is_HandleBlock (calls d))
  /\ audit MsgBlockSyncDataType d = wrap_int (count is_HandleBlockSync (calls d)).

(** Every action and new-block event on its way, in a goroutine or in the
    channel, is for a chain with a subscriber. *)
Definition in_flight_registered (d : IotxDispatcher) : Prop :=
  Forall (registered (subscribers d)) (eventChan d)
  /\ Forall (fun g => registered (subscribers d) (event_of g)) (goroutines d).

End Dispatcher.

(** * Properties of the cached batch *)

Module BatchFacts.
Import Batch.

#[local] Ltac unfold_ops :=
  unfold cached_Put, cached_PutIfNotExists, cached_Delete, cached_Clear,
    Snapshot, Clone, WriteIfNotExist, Write, Evict, cache_Clear, batch,
    base_Clear, Size, queue, cache in *; simpl in *.

Lemma slice_to_Some {A} (l : list A) (n : Z) :
  0 <= n <= Z.of_nat (length l) -> slice_to l n = Some (take (Z.to_nat n) l).
Proof.
  intros [H0 H1]. unfold slice_to.
  destruct (Z.leb_spec 0 n); [|lia].
  destruct (Z.leb_spec n (Z.of_nat (length l))); [reflexivity|lia].
Qed.

Lemma index_nonneg {A} (l : list A) (i : Z) :
  0 <= i -> index l i = l !! Z.to_nat i.
Proof. intros H. unfold index. destruct (Z.ltb_spec i 0); [lia|reflexivity]. Qed.

Lemma deref_alter_eq (f : kvCache -> kvCache) (l : loc) (h : store) :
  (l < length h)%nat -> deref (alter f l h) l = f (deref h l).
Proof.
  intros Hl. unfold deref. rewrite list_lookup_alter_eq.
  destruct (lookup_lt_is_Some_2 h l Hl) as [m ->]. reflexivity.
Qed.

Lemma deref_alter_ne (f : kvCache -> kvCache) (l l' : loc) (h : store) :
  l <> l' -> deref (alter f l h) l' = deref h l'.
Proof. intros Hne. unfold deref. by rewrite list_lookup_alter_ne. Qed.

Lemma deref_app_l (h h' : store) (l : loc) :
  (l < length h)%nat -> deref (h ++ h') l = deref h l.
Proof. intros Hl. unfold deref. by rewrite lookup_app_l. Qed.

Lemma deref_app_new (h : store) (m : kvCache) :
  deref (h ++ [m]) (length h) = m.
Proof.
  unfold deref. rewrite lookup_app_r by lia.
  by rewrite Nat.sub_diag.
Qed.

(** ** Well-formedness is kept *)

Lemma wf_NewCachedBatch : wf NewCachedBatch.
Proof.
  unfold wf, NewCachedBatch; simpl. repeat split; auto; try lia.
  intros i j x y _ Hx. by rewrite lookup_nil in Hx.
Qed.

Lemma ascending_snoc (l : list Z) (n : Z) :
  ascending l -> Forall (fun x => x <= n) l -> ascending (l ++ [n]).
Proof.
  intros Hasc Hle i j x y Hij Hx Hy.
  apply lookup_snoc_Some in Hy as [[Hj Hy]|[Hj ->]].
  - rewrite lookup_app_l in Hx by lia. eauto.
  - apply lookup_snoc_Some in Hx as [[Hi Hx]|[Hi ->]]; [|lia].
    exact (proj1 (Forall_lookup _ _) Hle _ _ Hx).
Qed.

Lemma ascending_take (l : list Z) (n : nat) :
  ascending l -> ascending (take n l).
Proof.
  intros Hasc i j x y Hij Hx Hy.
  apply lookup_take_Some in Hx as [Hx _].
  apply lookup_take_Some in Hy as [Hy _]. eauto.
Qed.

Lemma Forall_shots_grow (shots : list Z) (n m : nat) :
  (n <= m)%nat ->
  Forall (fun x => 0 <= x <= Z.of_nat n) shots ->
  Forall (fun x => 0 <= x <= Z.of_nat m) shots.
Proof. intros Hnm. apply Forall_impl. intros x Hx. lia. Qed.

Lemma Forall_locs_grow (ls : list loc) (n m : nat) :
  (n <= m)%nat ->
  Forall (fun l => (l < n)%nat) ls -> Forall (fun l => (l < m)%nat) ls.
Proof. intros Hnm. apply Forall_impl. intros x Hx. lia. Qed.

Section WithHash.
Variable Hash160b : bytes -> bytes.
Variable BytesToCacheHash : bytes -> CacheHash.

#[local] Abbreviation hash := (hash Hash160b BytesToCacheHash).
#[local] Abbreviation cached_Put := (cached_Put Hash160b BytesToCacheHash).
#[local] Abbreviation cached_PutIfNotExists := (cached_PutIfNotExists Hash160b BytesToCacheHash).
#[local] Abbreviation cached_Delete := (cached_Delete Hash160b BytesToCacheHash).
#[local] Abbreviation Get := (Get Hash160b BytesToCacheHash).
#[local] Abbreviation run_op := (run_op Hash160b BytesToCacheHash).
#[local] Abbreviation run := (run Hash160b BytesToCacheHash).

Lemma wf_Put ns k v ef ea s : wf s -> wf (cached_Put ns k v ef ea s).
Proof.
  intros (Ht & Hl & Hb & Ha & Hc & Hk). unfold wf. unfold_ops.
  rewrite length_alter, length_app. simpl.
  repeat split; auto.
  eapply Forall_shots_grow; [|exact Hb]. lia.
Qed.

Lemma wf_Delete ns k ef ea s : wf s -> wf (cached_Delete ns k ef ea s).
Proof.
  intros (Ht & Hl & Hb & Ha & Hc & Hk). unfold wf. unfold_ops.
  rewrite length_alter, length_app. simpl.
  repeat split; auto.
  eapply Forall_shots_grow; [|exact Hb]. lia.
Qed.

Lemma wf_PutIfNotExists ns k v ef ea s :
  wf s -> wf (fst (cached_PutIfNotExists ns k v ef ea s)).
Proof.
  intros (Ht & Hl & Hb & Ha & Hc & Hk). unfold wf. unfold_ops.
  destruct (deref (caches s) (KVStoreCache (cb s)) !! hash ns k); simpl.
  - repeat split; auto.
  - rewrite length_alter, length_app. simpl.
    repeat split; auto.
    eapply Forall_shots_grow; [|exact Hb]. lia.
Qed.

Lemma wf_Clear s : wf s -> wf (cached_Clear s).
Proof.
  intros (Ht & Hl & Hb & Ha & Hc & Hk). unfold wf. unfold_ops.
  rewrite length_alter. repeat split; auto.
  intros i j x y _ Hx. by rewrite lookup_nil in Hx.
Qed.

Lemma wf_Snapshot s : wf s -> wf (fst (Snapshot s)).
Proof.
  intros (Ht & Hl & Hb & Ha & Hc & Hk). unfold wf. unfold_ops.
  rewrite !length_app. simpl.
  repeat split.
  - lia.
  - lia.
  - apply Forall_app. split; [exact Hb|]. constructor; [lia|constructor].
  - apply ascending_snoc; [exact Ha|].
    eapply Forall_impl; [|exact Hb]. intros x Hx. simpl in Hx. lia.
  - apply Forall_app. split.
    + eapply Forall_locs_grow; [|exact Hc]. lia.
    + constructor; [lia|constructor].
  - lia.
Qed.

(** On a well-formed batch [Revert] never panics, and what it returns is
    well-formed again. *)
Lemma Revert_wf_defined t s :
  wf s -> exists s' r, Revert t s = Some (s', r) /\ wf s'.
Proof.
  intros Hwf. pose proof Hwf as (Ht & Hl & Hb & Ha & Hc & Hk).
  unfold Revert; cbv zeta.
  destruct ((t <? 0) || (t >=? tag (cb s))) eqn:Hguard.
  { eexists _, _. split; [reflexivity|exact Hwf]. }
  apply orb_false_iff in Hguard as [H0 H1].
  apply Z.ltb_ge in H0. rewrite Z.geb_leb in H1. apply Z.leb_gt in H1.
  assert (Hlt : (Z.to_nat t < length (batchShots (cb s)))%nat) by lia.
  destruct (lookup_lt_is_Some_2 (batchShots (cb s)) _ Hlt) as [size Hsize].
  assert (Hlt' : (Z.to_nat t < length (cacheShots (cb s)))%nat) by lia.
  destruct (lookup_lt_is_Some_2 (cacheShots (cb s)) _ Hlt') as [l Hloc].
  pose proof (proj1 (Forall_lookup _ _) Hb _ _ Hsize) as Hrange. simpl in Hrange.
  unfold Size in Hrange.
  rewrite (slice_to_Some (batchShots (cb s))) by lia. simpl.
  rewrite (index_nonneg (take _ (batchShots (cb s)))) by lia.
  rewrite lookup_take_lt by lia. rewrite Hsize. simpl.
  unfold truncate. rewrite (slice_to_Some (writeQueue _)) by lia. simpl.
  rewrite (slice_to_Some (cacheShots (cb s))) by lia. simpl.
  rewrite (index_nonneg (take _ (cacheShots (cb s)))) by lia.
  rewrite lookup_take_lt by lia. rewrite Hloc. simpl.
  eexists _, _. split; [reflexivity|].
  unfold wf; simpl. rewrite !length_take.
  repeat split.
  - lia.
  - lia.
  - apply Forall_lookup. intros i x Hi.
    apply lookup_take_Some in Hi as [Hi Hi'].
    pose proof (proj1 (Forall_lookup _ _) Hb _ _ Hi) as Hx. simpl in Hx.
    split; [apply Hx|]. unfold Size; simpl. rewrite length_take.
    assert (x <= size) by (apply (Ha i (Z.to_nat t) x size); [lia|done..]).
    lia.
  - by apply ascending_take.
  - apply Forall_take. exact Hc.
  - exact (proj1 (Forall_lookup _ _) Hc _ _ Hloc).
Qed.

Lemma wf_run_op o s s' : wf s -> run_op o s = Some s' -> wf s'.
Proof.
  intros Hwf Hrun. destruct o; simpl in Hrun.
  - injection Hrun as <-. by apply wf_Put.
  - injection Hrun as <-. by apply wf_PutIfNotExists.
  - injection Hrun as <-. by apply wf_Delete.
  - injection Hrun as <-. by apply wf_Snapshot.
  - destruct (Revert_wf_defined snapshot s Hwf) as (s1 & r & Hrev & Hwf1).
    rewrite Hrev in Hrun. simpl in Hrun. by injection Hrun as <-.
  - injection Hrun as <-. by apply wf_Clear.
Qed.

Lemma wf_run os : forall s s', wf s -> run os s = Some s' -> wf s'.
Proof.
  induction os as [|o os IH]; intros s s' Hwf Hrun; simpl in Hrun.
  - by injection Hrun as <-.
  - destruct (run_op o s) as [s1|] eqn:Ho; simpl in Hrun; [|discriminate].
    eapply IH; [|exact Hrun]. eapply wf_run_op; eauto.
Qed.

(** No sequence of operations on a new cached batch panics. *)
Lemma run_defined os : forall s, wf s -> is_Some (run os s).
Proof.
  induction os as [|o os IH]; intros s Hwf; simpl; [by eexists|].
  assert (exists s1, run_op o s = Some s1) as [s1 Ho].
  { destruct o; simpl; try by eexists.
    destruct (Revert_wf_defined snapshot s Hwf) as (s1 & r & -> & _).
    by eexists. }
  rewrite Ho. simpl. apply IH. eapply wf_run_op; eauto.
Qed.

End WithHash.

(** ** Revert *)

Lemma Revert_out_of_range (s : state) (t : Z) :
  t < 0 \/ tag (cb s) <= t ->
  Revert t s = Some (s, Some (Wrapf ErrInvalidDB "invalid snapshot number = %d" t)).
Proof.
  intros Hbad. unfold Revert; cbv zeta.
  destruct ((t <? 0) || (t >=? tag (cb s))) eqn:Hguard; [reflexivity|].
  apply orb_false_iff in Hguard as [H0 H1].
  apply Z.ltb_ge in H0. rewrite Z.geb_leb in H1. apply Z.leb_gt in H1. lia.
Qed.

Lemma Revert_in_range (s : state) (t : Z) :
  wf s ->
  0 <= t < Z.of_nat (length (batchShots (cb s))) ->
  exists size l,
    batchShots (cb s) !! Z.to_nat t = Some size
    /\ cacheShots (cb s) !! Z.to_nat t = Some l
    /\ 0 <= size <= Z.of_nat (length (queue s))
    /\ Revert t s =
       Some (mkState (caches s)
               (mkCached (mkBase (take (Z.to_nat size) (queue s))) l (t + 1)
                  (take (S (Z.to_nat t)) (batchShots (cb s)))
                  (take (S (Z.to_nat t)) (cacheShots (cb s)))),
             None).
Proof.
  intros (Ht & Hl & Hb & Ha & Hc & Hk) [H0 H1]. unfold Revert; cbv zeta.
  destruct ((t <? 0) || (t >=? tag (cb s))) eqn:Hguard.
  { apply orb_true_iff in Hguard as [Hg|Hg].
    - apply Z.ltb_lt in Hg. lia.
    - rewrite Z.geb_leb in Hg. apply Z.leb_le in Hg. lia. }
  assert (Hlt : (Z.to_nat t < length (batchShots (cb s)))%nat) by lia.
  destruct (lookup_lt_is_Some_2 (batchShots (cb s)) _ Hlt) as [size Hsize].
  assert (Hlt' : (Z.to_nat t < length (cacheShots (cb s)))%nat) by lia.
  destruct (lookup_lt_is_Some_2 (cacheShots (cb s)) _ Hlt') as [l Hloc].
  pose proof (proj1 (Forall_lookup _ _) Hb _ _ Hsize) as Hrange.
  simpl in Hrange. unfold Size in Hrange.
  exists size, l. split; [exact Hsize|]. split; [exact Hloc|].
  split; [exact Hrange|].
  rewrite (slice_to_Some (batchShots (cb s))) by lia. simpl.
  rewrite (index_nonneg (take _ (batchShots (cb s)))) by lia.
  rewrite lookup_take_lt by lia. rewrite Hsize. simpl.
  unfold truncate. rewrite (slice_to_Some (writeQueue _)) by lia. simpl.
  rewrite (slice_to_Some (cacheShots (cb s))) by lia. simpl.
  rewrite (index_nonneg (take _ (cacheShots (cb s)))) by lia.
  rewrite lookup_take_lt by lia. rewrite Hloc. simpl.
  replace (Z.to_nat (t + 1)) with (S (Z.to_nat t)) by lia.
  reflexivity.
Qed.

(** What holds of the outcome of [Revert]: on a cached batch, [Revert t]
    returns the invalid-snapshot error exactly when [t < 0] or [t] is not
    below the number of snapshots held, and then leaves the write queue, the
    cache and the snapshot stacks as they were; otherwise it returns no
    error, cuts the write queue to the length recorded at snapshot [t], makes
    the cache object kept for snapshot [t] the current one, whatever that
    object holds by then, and keeps the snapshots up to [t] only. *)
Lemma Revert_error_handling (s : state) (t : Z) :
  wf s ->
  let held := Z.of_nat (length (batchShots (cb s))) in
  (t < 0 \/ held <= t ->
     Revert t s =
     Some (s, Some (Wrapf ErrInvalidDB "invalid snapshot number = %d" t)))
  /\ (0 <= t < held ->
      exists size l,
        batchShots (cb s) !! Z.to_nat t = Some size
        /\ cacheShots (cb s) !! Z.to_nat t = Some l
        /\ Revert t s =
           Some (mkState (caches s)
                   (mkCached (mkBase (take (Z.to_nat size) (queue s))) l (t + 1)
                      (take (S (Z.to_nat t)) (batchShots (cb s)))
                      (take (S (Z.to_nat t)) (cacheShots (cb s)))),
                 None)).
Proof.
  intros Hwf held. subst held. split.
  - intros Hbad. apply Revert_out_of_range.
    destruct Hwf as (Ht & _). lia.
  - intros Hin.
    destruct (Revert_in_range s t Hwf Hin) as (size & l & Hs & Hc & _ & Hrev).
    by exists size, l.
Qed.

(** The lemma at the batch that holds one snapshot, reverted to it. *)
Lemma Revert_error_handling_witness :
  let s := fst (Snapshot NewCachedBatch) in
  Revert 0 s = Some (mkState [∅; ∅] (mkCached NewBatch 1%nat 1 [0] [1%nat]), None)
  /\ Revert 1 s = Some (s, Some (Wrapf ErrInvalidDB "invalid snapshot number = %d" 1)).
Proof.
  intros s.
  assert (Hwf : wf s) by (apply wf_Snapshot, wf_NewCachedBatch).
  split.
  - destruct (proj2 (Revert_error_handling s 0 Hwf)) as (size & l & Hs & Hc & ->).
    { simpl. lia. }
    simpl in Hs, Hc. injection Hs as <-. injection Hc as <-. reflexivity.
  - apply (proj1 (Revert_error_handling s 1 Hwf)). simpl. lia.
Defined.

(** ** PutIfNotExists *)

(** C10.  On a plain batch, [PutIfNotExists] returns no error and appends
    its entry to the write queue whatever the queue holds already, an entry
    for the same namespace and key included. *)
Theorem base_PutIfNotExists_always_appends (ns : string) (k v : bytes)
    (ef : string) (ea : list string) (b : baseKVStoreBatch) :
  base_PutIfNotExists ns k v ef ea b =
    (mkBase (writeQueue b ++ [mkWriteInfo PutIfNotExists ns k v ef ea]), None)
  /\ forall v' ef' ea',
      snd (base_PutIfNotExists ns k v' ef' ea'
             (fst (base_PutIfNotExists ns k v ef ea b))) = None
      /\ writeQueue (fst (base_PutIfNotExists ns k v' ef' ea'
                            (fst (base_PutIfNotExists ns k v ef ea b)))) =
         writeQueue b ++ [mkWriteInfo PutIfNotExists ns k v ef ea;
                          mkWriteInfo PutIfNotExists ns k v' ef' ea'].
Proof.
  split; [reflexivity|]. intros v' ef' ea'. split; [reflexivity|].
  unfold base_PutIfNotExists, batch; simpl. by rewrite <- app_assoc.
Qed.

Section WithHash.
Variable Hash160b : bytes -> bytes.
Variable BytesToCacheHash : bytes -> CacheHash.

#[local] Abbreviation hash := (hash Hash160b BytesToCacheHash).
#[local] Abbreviation cached_Put := (cached_Put Hash160b BytesToCacheHash).
#[local] Abbreviation cached_PutIfNotExists := (cached_PutIfNotExists Hash160b BytesToCacheHash).
#[local] Abbreviation cached_Delete := (cached_Delete Hash160b BytesToCacheHash).
#[local] Abbreviation Get := (Get Hash160b BytesToCacheHash).
#[local] Abbreviation run_op := (run_op Hash160b BytesToCacheHash).
#[local] Abbreviation run := (run Hash160b BytesToCacheHash).

Lemma cache_after_Delete ns k ef ea s :
  cache (cached_Delete ns k ef ea s) !! hash ns k = None.
Proof.
  unfold cache, cached_Delete, Evict, deref; simpl.
  rewrite list_lookup_alter_eq.
  destruct (caches s !! KVStoreCache (cb s)); simpl.
  - apply lookup_delete_eq.
  - apply lookup_empty.
Qed.

(** C3.  On a cached batch, [PutIfNotExists] returns no error and appends
    its entry to the write queue when the cache has nothing under the hash of
    namespace and key; when the cache has an entry there it returns the
    already-exists error and changes nothing.  After [Delete] of a key has
    evicted it from the cache, [PutIfNotExists] of that key succeeds, with
    the Delete entry still in the queue before it. *)
Theorem cached_PutIfNotExists_cache_decides (ns : string) (k v : bytes)
    (ef : string) (ea : list string) (s : state) :
  (cache s !! hash ns k = None ->
     snd (cached_PutIfNotExists ns k v ef ea s) = None
     /\ queue (fst (cached_PutIfNotExists ns k v ef ea s)) =
        queue s ++ [mkWriteInfo PutIfNotExists ns k v ef ea])
  /\ (is_Some (cache s !! hash ns k) ->
      cached_PutIfNotExists ns k v ef ea s = (s, Some ErrAlreadyExist))
  /\ (forall ef' ea',
      let s1 := cached_Delete ns k ef' ea' s in
      snd (cached_PutIfNotExists ns k v ef ea s1) = None
      /\ queue (fst (cached_PutIfNotExists ns k v ef ea s1)) =
         queue s ++ [mkWriteInfo Delete ns k [] ef' ea';
                     mkWriteInfo PutIfNotExists ns k v ef ea]).
Proof.
  assert (Hnone : forall s0, cache s0 !! hash ns k = None ->
            snd (cached_PutIfNotExists ns k v ef ea s0) = None
            /\ queue (fst (cached_PutIfNotExists ns k v ef ea s0)) =
               queue s0 ++ [mkWriteInfo PutIfNotExists ns k v ef ea]).
  { intros s0 H0. unfold Batch.cached_PutIfNotExists, WriteIfNotExist, cache in *.
    rewrite H0. by simpl. }
  split; [apply Hnone|]. split.
  - intros [v0 Hv0]. unfold Batch.cached_PutIfNotExists, WriteIfNotExist, cache in *.
    by rewrite Hv0.
  - intros ef' ea' s1.
    destruct (Hnone s1 (cache_after_Delete ns k ef' ea' s)) as [-> ->].
    split; [reflexivity|].
    unfold s1, queue, Batch.cached_Delete, batch; simpl. by rewrite <- app_assoc.
Qed.

(** ** Snapshot and Revert together *)

Lemma Get_cache ns k s :
  Get ns k s =
  match cache s !! hash ns k with
  | Some v => (v, None)
  | None => ([], Some ErrNotExist)
  end.
Proof. reflexivity. Qed.

Lemma cache_Put ns k v ef ea s :
  (KVStoreCache (cb s) < length (caches s))%nat ->
  cache (cached_Put ns k v ef ea s) = <[hash ns k := v]> (cache s).
Proof. intros Hk. unfold cache; simpl. unfold Write. by rewrite deref_alter_eq. Qed.

Lemma Snapshot_eq s :
  Snapshot s =
  (mkState (caches s ++ [cache s])
     (mkCached (KVStoreBatch (cb s)) (KVStoreCache (cb s)) (tag (cb s) + 1)
        (batchShots (cb s) ++ [Z.of_nat (length (queue s))])
        (cacheShots (cb s) ++ [length (caches s)])),
   tag (cb s)).
Proof. reflexivity. Qed.

(** Reverting to the snapshot just taken: the queue and the cache content
    are those of the snapshot, and the current cache is from now on the very
    object the snapshot stack holds. *)
Lemma Revert_after_Snapshot s :
  wf s ->
  Revert (snd (Snapshot s)) (fst (Snapshot s)) =
  Some (mkState (caches s ++ [cache s])
          (mkCached (KVStoreBatch (cb s)) (length (caches s)) (tag (cb s) + 1)
             (batchShots (cb s) ++ [Z.of_nat (length (queue s))])
             (cacheShots (cb s) ++ [length (caches s)])),
        None).
Proof.
  intros Hwf. pose proof Hwf as (Ht & Hl & Hb & Ha & Hc & Hk).
  pose proof (wf_Snapshot s Hwf) as Hwf1.
  rewrite Snapshot_eq in *. cbn [fst snd] in *.
  match type of Hwf1 with wf ?x => set (s1 := x) in * end.
  destruct (Revert_in_range s1 (tag (cb s)) Hwf1) as (size & l & Hs & Hc1 & _ & ->).
  { subst s1; simpl. rewrite length_app; simpl. lia. }
  subst s1; simpl in *.
  rewrite Ht, Nat2Z.id in Hs, Hc1 |- *.
  rewrite lookup_app_r, Nat.sub_diag in Hs by lia. simpl in Hs.
  rewrite <- Hl in Hc1 at 1.
  rewrite lookup_app_r, Nat.sub_diag in Hc1 by lia. simpl in Hc1.
  injection Hs as <-. injection Hc1 as <-.
  unfold queue. rewrite Nat2Z.id, firstn_all.
  rewrite (take_ge (batchShots _ ++ _)) by (rewrite length_app; simpl; lia).
  rewrite (take_ge (cacheShots _ ++ _)) by (rewrite length_app; simpl; lia).
  destruct (cb s) as [[q] ? ? ? ?]; simpl. reflexivity.
Qed.

Lemma cache_Snapshot s :
  (KVStoreCache (cb s) < length (caches s))%nat ->
  cache (fst (Snapshot s)) = cache s.
Proof. intros Hk. unfold cache; simpl. by rewrite deref_app_l. Qed.

(** A write made after a revert lands in the cache object that the snapshot
    stack holds, so a second revert to the same snapshot brings the write
    back instead of the snapshot's content. *)
Lemma Revert_twice ns k v ef ea s :
  wf s ->
  exists s2 s3,
    Revert (snd (Snapshot s)) (fst (Snapshot s)) = Some (s2, None)
    /\ Revert (snd (Snapshot s)) (cached_Put ns k v ef ea s2) = Some (s3, None)
    /\ queue s3 = queue s
    /\ cache s3 = <[hash ns k := v]> (cache s).
Proof.
  intros Hwf. pose proof Hwf as (Ht & Hl & Hb & Ha & Hc & Hk).
  pose proof (Revert_after_Snapshot s Hwf) as Hrev.
  destruct (Revert_wf_defined (snd (Snapshot s)) (fst (Snapshot s))
              (wf_Snapshot s Hwf)) as (s2 & r & Hrev' & Hwf2).
  rewrite Hrev in Hrev'. injection Hrev' as <- <-.
  match type of Hwf2 with wf ?x => set (s2 := x) in * end.
  pose proof (wf_Put Hash160b BytesToCacheHash ns k v ef ea s2 Hwf2) as Hwf4.
  set (s4 := cached_Put ns k v ef ea s2) in *.
  change (snd (Snapshot s)) with (tag (cb s)) in *.
  destruct (Revert_in_range s4 (tag (cb s)) Hwf4) as (size & l & Hs & Hc4 & _ & Hrev4).
  { subst s4 s2; simpl. rewrite length_app; simpl. lia. }
  exists s2. eexists. split; [exact Hrev|]. split; [exact Hrev4|].
  subst s4 s2; simpl in *.
  rewrite Ht, Nat2Z.id in Hs, Hc4.
  rewrite lookup_app_r, Nat.sub_diag in Hs by lia. simpl in Hs.
  rewrite <- Hl in Hc4 at 1.
  rewrite lookup_app_r, Nat.sub_diag in Hc4 by lia. simpl in Hc4.
  injection Hs as <-. injection Hc4 as <-.
  unfold queue, cache; simpl. split.
  - rewrite Nat2Z.id. apply take_app_length.
  - unfold Write. rewrite deref_alter_eq by (rewrite length_app; simpl; lia).
    by rewrite deref_app_new.
Qed.

(** *** What a revert does restore *)

Section KeepsSnapshot.

(** A snapshot as [keeps_snapshot] names it, with what is known of it right
    after it was taken. *)
Variables (n : nat) (L : loc) (q1 : list writeInfo) (m1 : kvCache).
Variables (bs1 : list Z) (cs1 : list loc).
Hypothesis bs1_length : length bs1 = S n.
Hypothesis cs1_length : length cs1 = S n.
Hypothesis bs1_last : bs1 !! n = Some (Z.of_nat (length q1)).
Hypothesis cs1_last : cs1 !! n = Some L.

#[local] Abbreviation keeps_snapshot := (keeps_snapshot n L q1 m1 bs1 cs1).

Lemma keeps_snapshot_lengths s :
  keeps_snapshot s ->
  (S n <= length (batchShots (cb s)))%nat
  /\ (S n <= length (cacheShots (cb s)))%nat
  /\ batchShots (cb s) !! n = Some (Z.of_nat (length q1))
  /\ cacheShots (cb s) !! n = Some L
  /\ (L < length (caches s))%nat.
Proof.
  intros (Hwf & Hbs & Hcs & _). destruct Hwf as (_ & _ & _ & _ & Hc & _).
  assert (Hb : (S n <= length (batchShots (cb s)))%nat).
  { pose proof (f_equal length Hbs) as H. rewrite length_take in H. lia. }
  assert (Hc' : (S n <= length (cacheShots (cb s)))%nat).
  { pose proof (f_equal length Hcs) as H. rewrite length_take in H. lia. }
  assert (HL : cacheShots (cb s) !! n = Some L).
  { rewrite <- cs1_last, <- Hcs. by rewrite lookup_take_lt by lia. }
  repeat split; auto.
  - rewrite <- bs1_last, <- Hbs. by rewrite lookup_take_lt by lia.
  - exact (proj1 (Forall_lookup _ _) Hc _ _ HL).
Qed.

Lemma keeps_snapshot_write (f : kvCache -> kvCache) (e : writeInfo) s :
  keeps_snapshot s ->
  wf (mkState (alter f (KVStoreCache (cb s)) (caches s))
        (mkCached (mkBase (queue s ++ [e])) (KVStoreCache (cb s)) (tag (cb s))
           (batchShots (cb s)) (cacheShots (cb s)))) ->
  keeps_snapshot
    (mkState (alter f (KVStoreCache (cb s)) (caches s))
       (mkCached (mkBase (queue s ++ [e])) (KVStoreCache (cb s)) (tag (cb s))
          (batchShots (cb s)) (cacheShots (cb s)))).
Proof.
  intros (Hwf & Hbs & Hcs & [extra Hq] & Hm & Hne & Hlater) Hwf'.
  unfold Batch.keeps_snapshot; simpl.
  split; [exact Hwf'|]. split; [exact Hbs|]. split; [exact Hcs|].
  split; [|split; [|split]]; auto.
  - exists (extra ++ [e]). unfold queue in *; simpl. by rewrite Hq, app_assoc.
  - by rewrite deref_alter_ne.
Qed.

Lemma keeps_snapshot_run_op o s s' :
  keeps (Z.of_nat n) o = true ->
  keeps_snapshot s -> run_op o s = Some s' -> keeps_snapshot s'.
Proof.
  intros Hkeeps Hinv Hrun.
  pose proof (keeps_snapshot_lengths s Hinv) as (Hlb & Hlc & Hbn & Hcn & HL).
  pose proof Hinv as (Hwf & Hbs & Hcs & [extra Hq] & Hm & Hne & Hlater).
  assert (Hwf' : wf s') by (eapply wf_run_op; eauto).
  destruct o as [ns k v ef ea|ns k v ef ea|ns k ef ea| |t'|]; simpl in Hrun, Hkeeps.
  - injection Hrun as <-. by apply keeps_snapshot_write.
  - injection Hrun as <-. revert Hwf'.
    unfold Batch.cached_PutIfNotExists, WriteIfNotExist.
    destruct (deref (caches s) (KVStoreCache (cb s)) !! hash ns k); simpl.
    + auto.
    + by apply keeps_snapshot_write.
  - injection Hrun as <-. by apply keeps_snapshot_write.
  - injection Hrun as <-. simpl in *.
    unfold Batch.keeps_snapshot; simpl.
    split; [exact Hwf'|]. split; [|split; [|split; [|split; [|split]]]]; auto.
    + by rewrite take_app_le by lia.
    + by rewrite take_app_le by lia.
    + exists extra. exact Hq.
    + by rewrite deref_app_l.
    + intros j l Hj Hl. apply lookup_snoc_Some in Hl as [[_ Hl]|[_ <-]]; eauto. lia.
  - apply Z.ltb_lt in Hkeeps.
    destruct Hwf as (Ht & Hlen & Hb & Ha & Hc & Hk).
    destruct (Z.lt_ge_cases t' (Z.of_nat (length (batchShots (cb s))))) as [Hin|Hout].
    + destruct (Revert_in_range s t' ltac:(repeat split; auto) ltac:(lia))
        as (size & l & Hsize & Hl & Hrange & Hrev).
      rewrite Hrev in Hrun. simpl in Hrun. injection Hrun as <-.
      unfold Batch.keeps_snapshot; simpl.
      split; [exact Hwf'|]. split; [|split; [|split; [|split; [|split]]]]; auto.
      * rewrite take_take. by replace (S n `min` S (Z.to_nat t'))%nat with (S n) by lia.
      * rewrite take_take. by replace (S n `min` S (Z.to_nat t'))%nat with (S n) by lia.
      * assert (Z.of_nat (length q1) <= size).
        { apply (Ha n (Z.to_nat t')); [lia|done..]. }
        exists (take (Z.to_nat size - length q1) extra).
        unfold queue in *; simpl. rewrite Hq, take_app. f_equal.
        apply take_ge. lia.
      * apply (Hlater (Z.to_nat t')); [lia|exact Hl].
      * intros j l' Hj Hl'. apply lookup_take_Some in Hl' as [Hl' _]. eauto.
    + rewrite Revert_out_of_range in Hrun by lia.
      simpl in Hrun. by injection Hrun as <-.
  - discriminate.
Qed.

Lemma keeps_snapshot_run os : forall s,
  forallb (keeps (Z.of_nat n)) os = true ->
  keeps_snapshot s ->
  exists s', run os s = Some s' /\ keeps_snapshot s'.
Proof.
  induction os as [|o os IH]; intros s Hall Hinv; simpl in *.
  - by exists s.
  - apply andb_true_iff in Hall as [Ho Hos].
    destruct (run_op o s) as [s1|] eqn:Hrun.
    + simpl. apply IH; [exact Hos|]. eapply keeps_snapshot_run_op; eauto.
    + exfalso. destruct Hinv as (Hwf & _).
      destruct (run_defined Hash160b BytesToCacheHash [o] s Hwf) as [s1 Hs1].
      simpl in Hs1. by rewrite Hrun in Hs1.
Qed.

Lemma keeps_snapshot_Revert s :
  keeps_snapshot s ->
  exists s',
    Revert (Z.of_nat n) s = Some (s', None)
    /\ queue s' = q1 /\ cache s' = m1
    /\ tag (cb s') = Z.of_nat (S n)
    /\ batchShots (cb s') = bs1 /\ cacheShots (cb s') = cs1.
Proof.
  intros Hinv.
  pose proof (keeps_snapshot_lengths s Hinv) as (Hlb & Hlc & Hbn & Hcn & HL).
  destruct Hinv as (Hwf & Hbs & Hcs & [extra Hq] & Hm & Hne & Hlater).
  destruct (Revert_in_range s (Z.of_nat n) Hwf ltac:(lia))
    as (size & l & Hsize & Hl & _ & Hrev).
  rewrite Nat2Z.id in *. rewrite Hbn in Hsize. rewrite Hcn in Hl.
  injection Hsize as <-. injection Hl as <-.
  eexists. split; [exact Hrev|]. unfold queue, cache; simpl.
  repeat split; auto.
  - rewrite Nat2Z.id. unfold queue in Hq. rewrite Hq. apply take_app_length.
  - lia.
Qed.

End KeepsSnapshot.

(** Where the round trip holds: after a snapshot [t], any sequence of puts,
    deletes, further snapshots and reverts to later snapshots, followed by
    [Revert t], gives back the queue, the cache content, the tag and the
    snapshot stacks of the moment right after the snapshot. *)
Lemma Revert_restores_snapshot (s : state) (os : list op) :
  wf s ->
  let s1 := fst (Snapshot s) in
  let t := snd (Snapshot s) in
  forallb (keeps t) os = true ->
  exists s2 s3,
    run os s1 = Some s2
    /\ Revert t s2 = Some (s3, None)
    /\ queue s3 = queue s1
    /\ (forall ns k, Get ns k s3 = Get ns k s1)
    /\ tag (cb s3) = tag (cb s1)
    /\ batchShots (cb s3) = batchShots (cb s1)
    /\ cacheShots (cb s3) = cacheShots (cb s1).
Proof.
  intros Hwf s1 t Hos.
  pose proof Hwf as (Ht & Hl & Hb & Ha & Hc & Hk).
  pose proof (wf_Snapshot s Hwf) as Hwf1. fold s1 in Hwf1.
  set (n := length (batchShots (cb s))).
  assert (Htn : t = Z.of_nat n) by (subst t n; simpl; lia).
  assert (Hinv : keeps_snapshot n (length (caches s)) (queue s1) (cache s1)
                   (batchShots (cb s1)) (cacheShots (cb s1)) s1).
  { unfold keeps_snapshot. subst s1 n. rewrite Snapshot_eq in *. simpl in *.
    split; [exact Hwf1|]. split; [|split; [|split; [|split; [|split]]]].
    - apply take_ge. rewrite length_app. simpl. lia.
    - apply take_ge. rewrite length_app. simpl. lia.
    - exists []. by rewrite app_nil_r.
    - unfold cache; simpl. rewrite deref_app_new, deref_app_l by lia. reflexivity.
    - lia.
    - intros j l Hj Hlk. apply lookup_lt_Some in Hlk.
      rewrite length_app in Hlk. simpl in Hlk. lia. }
  assert (Hb1 : length (batchShots (cb s1)) = S n).
  { subst s1 n. simpl. rewrite length_app. simpl. lia. }
  assert (Hc1 : length (cacheShots (cb s1)) = S n).
  { subst s1 n. simpl. rewrite length_app. simpl. lia. }
  assert (Hbl : batchShots (cb s1) !! n = Some (Z.of_nat (length (queue s1)))).
  { subst s1 n. simpl. by rewrite lookup_app_r, Nat.sub_diag by lia. }
  assert (Hcl : cacheShots (cb s1) !! n = Some (length (caches s))).
  { subst s1 n. simpl. rewrite <- Hl at 1. by rewrite lookup_app_r, Nat.sub_diag by lia. }
  rewrite Htn in Hos |- *.
  destruct (keeps_snapshot_run n _ _ _ _ _ Hb1 Hc1 Hbl Hcl os s1 Hos Hinv)
    as (s2 & Hrun & Hinv2).
  destruct (keeps_snapshot_Revert n _ _ _ _ _ Hb1 Hc1 Hbl Hcl s2 Hinv2)
    as (s3 & Hrev & Hq & Hm & Htag & Hbs & Hcs).
  exists s2, s3. repeat split; auto.
  - intros ns k. by rewrite !Get_cache, Hm.
  - rewrite Htag. subst s1 n. simpl. lia.
Qed.

(** The snapshot and revert scenario of the specification: a put, a
    snapshot, a put and a delete of the same key, and a revert; the key reads
    as first put and the queue holds the first put alone. *)
Example snapshot_revert_scenario :
  let k1 := [x6b; x31]%byte in
  let v1 := [x76; x31]%byte in
  let v2 := [x76; x32]%byte in
  let s0 := cached_Put "ns" k1 v1 "" [] NewCachedBatch in
  exists s2 s3,
    run [OpPut "ns" k1 v2 "" []; OpDelete "ns" k1 "" []] (fst (Snapshot s0)) = Some s2
    /\ Revert (snd (Snapshot s0)) s2 = Some (s3, None)
    /\ Get "ns" k1 s3 = (v1, None)
    /\ queue s3 = [mkWriteInfo Put "ns" k1 v1 "" []].
Proof.
  intros k1 v1 v2 s0.
  assert (Hwf0 : wf s0) by apply wf_Put, wf_NewCachedBatch.
  destruct (Revert_restores_snapshot s0
              [OpPut "ns" k1 v2 "" []; OpDelete "ns" k1 "" []] Hwf0 eq_refl)
    as (s2 & s3 & Hrun & Hrev & Hq & Hget & _).
  exists s2, s3. split; [exact Hrun|]. split; [exact Hrev|]. split.
  - rewrite Hget, Get_cache, cache_Snapshot by apply Hwf0.
    unfold s0. rewrite cache_Put by (simpl; lia).
    by rewrite lookup_insert_eq.
  - rewrite Hq. reflexivity.
Qed.

(** C1, at the input where it fails.  A new batch gets key [k] set to [1],
    the snapshot [t] is taken, and the batch is reverted to [t]; then [k] is
    set to [2] and the batch is reverted to [t] once more.  The second revert
    returns no error and cuts the queue back to the snapshot's, but [Get]
    answers the value written after the snapshot. *)
Theorem Revert_twice_returns_later_write :
  let ns := "ns"%string in
  let k := [x6b]%byte in
  let s0 := cached_Put ns k [x31]%byte "" [] NewCachedBatch in
  let s1 := fst (Snapshot s0) in
  let t := snd (Snapshot s0) in
  Get ns k s1 = ([x31]%byte, None)
  /\ exists s2 s3,
      Revert t s1 = Some (s2, None)
      /\ Revert t (cached_Put ns k [x32]%byte "" [] s2) = Some (s3, None)
      /\ queue s3 = queue s1
      /\ Get ns k s3 = ([x32]%byte, None).
Proof.
  intros ns k s0 s1 t.
  assert (Hwf0 : wf s0) by apply wf_Put, wf_NewCachedBatch.
  assert (Hc0 : cache s0 = <[hash ns k := [x31]%byte]> ∅).
  { unfold s0. rewrite cache_Put by (simpl; lia). reflexivity. }
  split.
  - rewrite Get_cache. unfold s1.
    rewrite cache_Snapshot by apply Hwf0.
    by rewrite Hc0, lookup_insert_eq.
  - destruct (Revert_twice ns k [x32]%byte "" [] s0 Hwf0)
      as (s2 & s3 & H2 & H3 & Hq & Hc).
    exists s2, s3. repeat split; [exact H2|exact H3|exact Hq|].
    by rewrite Get_cache, Hc, lookup_insert_eq.
Qed.

(** C6, at the input where it fails.  A new batch is snapshot at once, so
    the cache saved at snapshot [0] is empty, and reverted to the snapshot;
    then a key is put and the batch is reverted to snapshot [0] again.  The
    token is in range and the revert returns no error and cuts the write
    queue back to its recorded length, zero; but the cache it leaves is not
    the one saved at the snapshot: it still holds the key that was put
    after. *)
Theorem Revert_success_keeps_later_write (ns : string) (k v : bytes)
    (ef : string) (ea : list string) :
  let s1 := fst (Snapshot NewCachedBatch) in
  let t := snd (Snapshot NewCachedBatch) in
  t = 0
  /\ cache s1 = ∅
  /\ (forall ns' k', Get ns' k' s1 = ([], Some ErrNotExist))
  /\ exists s2 s3,
      Revert t s1 = Some (s2, None)
      /\ Revert t (cached_Put ns k v ef ea s2) = Some (s3, None)
      /\ queue s3 = []
      /\ cache s3 = {[hash ns k := v]}
      /\ Get ns k s3 = (v, None).
Proof.
  intros s1 t.
  assert (Hc1 : cache s1 = ∅).
  { unfold s1. rewrite cache_Snapshot by (simpl; lia). reflexivity. }
  split; [reflexivity|]. split; [exact Hc1|]. split.
  - intros ns' k'. by rewrite Get_cache, Hc1, lookup_empty.
  - destruct (Revert_twice ns k v ef ea NewCachedBatch wf_NewCachedBatch)
      as (s2 & s3 & H2 & H3 & Hq & Hc).
    exists s2, s3. split; [exact H2|]. split; [exact H3|]. split; [exact Hq|].
    assert (Hc3 : cache s3 = {[hash ns k := v]}).
    { rewrite Hc. reflexivity. }
    split; [exact Hc3|].
    by rewrite Get_cache, Hc3, lookup_singleton_eq.
Qed.

End WithHash.

(** ** Further properties of the batches *)

(** X1.  [Entry] answers an index below zero or not below [Size] with the
    wrapped invalid-database error and no entry, and any other index with the
    entry staged at it.  Staging one more entry leaves the entries below the
    old size where they were and puts the new one at the old size. *)
Theorem Entry_bounds_and_lookup (b : baseKVStoreBatch) (i : Z) :
  (i < 0 \/ Size b <= i ->
     Entry i b = (None, Some (ErrInvalidDB, "index out of range"%string)))
  /\ (0 <= i < Size b ->
      exists e, writeQueue b !! Z.to_nat i = Some e /\ Entry i b = (Some e, None))
  /\ (forall op ns k v ef ea,
        Entry (Size b) (batch op ns k v ef ea b)
        = (Some (mkWriteInfo op ns k v ef ea), None)
        /\ (0 <= i < Size b -> Entry i (batch op ns k v ef ea b) = Entry i b)).
Proof.
  unfold Entry, Size. split; [|split].
  - intros Hout.
    destruct (Z.ltb_spec i 0); [reflexivity|].
    destruct (Z.geb_spec i (Z.of_nat (length (writeQueue b)))); [reflexivity|lia].
  - intros Hin.
    destruct (Z.ltb_spec i 0); [lia|].
    destruct (Z.geb_spec i (Z.of_nat (length (writeQueue b)))); [lia|]. simpl.
    destruct (lookup_lt_is_Some_2 (writeQueue b) (Z.to_nat i)) as [e He]; [lia|].
    exists e. by rewrite He.
  - intros op ns k v ef ea. unfold batch; simpl. rewrite length_app; simpl. split.
    + destruct (Z.ltb_spec (Z.of_nat (length (writeQueue b))) 0); [lia|].
      destruct (Z.geb_spec (Z.of_nat (length (writeQueue b)))
                  (Z.of_nat (length (writeQueue b) + 1))); [lia|]. simpl.
      by rewrite Nat2Z.id, lookup_app_r, Nat.sub_diag by lia.
    + intros Hin.
      destruct (Z.ltb_spec i 0); [lia|].
      destruct (Z.geb_spec i (Z.of_nat (length (writeQueue b) + 1))); [lia|].
      destruct (Z.geb_spec i (Z.of_nat (length (writeQueue b)))); [lia|]. simpl.
      by rewrite lookup_app_l by lia.
Qed.

(** A successful [Revert] passed the range test and leaves the tag one above
    the snapshot. *)
Lemma Revert_success_range (s s' : state) (t : Z) :
  Revert t s = Some (s', None) -> 0 <= t < tag (cb s) /\ tag (cb s') = t + 1.
Proof.
  unfold Revert; cbv zeta.
  destruct ((t <? 0) || (t >=? tag (cb s))) eqn:Hguard; [discriminate|].
  apply orb_false_iff in Hguard as [H0 H1].
  apply Z.ltb_ge in H0. rewrite Z.geb_leb in H1. apply Z.leb_gt in H1.
  intros H. split; [lia|].
  destruct (slice_to (batchShots (cb s)) (t + 1)) as [bs|]; [|discriminate]. simpl in H.
  destruct (index bs t) as [size|]; [|discriminate]. simpl in H.
  destruct (truncate size (KVStoreBatch (cb s))) as [b'|]; [|discriminate]. simpl in H.
  destruct (slice_to (cacheShots (cb s)) (t + 1)) as [cs|]; [|discriminate]. simpl in H.
  destruct (index cs t) as [l|]; [|discriminate]. simpl in H.
  by injection H as <-.
Qed.

(** X2.  Snapshot tokens count the snapshots held: on a batch in the shape
    every batch keeps, [Snapshot] returns the number of snapshots held and
    changes neither the queue nor what the cache holds; a second snapshot
    returns the next number; and after a successful [Revert t] the next
    snapshot returns [t + 1]. *)
Theorem Snapshot_tokens (s : state) :
  wf s ->
  snd (Snapshot s) = Z.of_nat (length (batchShots (cb s)))
  /\ queue (fst (Snapshot s)) = queue s
  /\ cache (fst (Snapshot s)) = cache s
  /\ snd (Snapshot (fst (Snapshot s))) = snd (Snapshot s) + 1
  /\ (forall t s', Revert t s = Some (s', None) -> snd (Snapshot s') = t + 1).
Proof.
  intros (Ht & Hl & Hb & Ha & Hc & Hk). repeat split; auto.
  - unfold cache; simpl. by rewrite deref_app_l.
  - intros t s' Hrev. by apply Revert_success_range in Hrev as [_ ?].
Qed.

(** The theorem at a new batch. *)
Lemma Snapshot_tokens_witness :
  snd (Snapshot NewCachedBatch) = 0
  /\ snd (Snapshot (fst (Snapshot NewCachedBatch))) = 1.
Proof.
  pose proof (Snapshot_tokens NewCachedBatch wf_NewCachedBatch) as (H0 & _ & _ & H1 & _).
  split; [exact H0|]. rewrite H1, H0. reflexivity.
Defined.

(** X3.  A successful [Revert t] can be repeated at once with the same
    outcome and no further change, and it has made every later token
    invalid: [Revert t'] with [t < t'] returns the invalid-snapshot error. *)
Theorem Revert_again (s s' : state) (t : Z) :
  wf s ->
  Revert t s = Some (s', None) ->
  Revert t s' = Some (s', None)
  /\ forall t', t < t' ->
       Revert t' s' =
       Some (s', Some (Wrapf ErrInvalidDB "invalid snapshot number = %d" t')).
Proof.
  intros Hwf Hrev.
  pose proof (Revert_success_range s s' t Hrev) as [Hrange Htag].
  destruct (Revert_wf_defined t s Hwf) as (s1 & r & Hrev1 & Hwf').
  rewrite Hrev in Hrev1. injection Hrev1 as <- <-.
  split.
  - pose proof Hwf as (Ht & Hl & Hb & Ha & Hc & Hk).
    destruct (Revert_in_range s t Hwf ltac:(lia)) as (size & l & Hs & Hcl & Hsz & Hrev2).
    rewrite Hrev in Hrev2. injection Hrev2 as ->.
    destruct (Revert_in_range _ t Hwf') as (size' & l' & Hs' & Hcl' & _ & ->).
    { simpl. rewrite length_take. lia. }
    simpl in Hs', Hcl'.
    rewrite lookup_take_lt in Hs' by lia. rewrite lookup_take_lt in Hcl' by lia.
    rewrite Hs in Hs'. rewrite Hcl in Hcl'. injection Hs' as <-. injection Hcl' as <-.
    unfold queue; simpl. rewrite !take_take.
    by replace (Z.to_nat size `min` Z.to_nat size)%nat with (Z.to_nat size) by lia;
       replace (S (Z.to_nat t) `min` S (Z.to_nat t))%nat with (S (Z.to_nat t)) by lia.
  - intros t' Hlt. apply Revert_out_of_range. lia.
Qed.

(** The theorem at the batch with two snapshots, reverted to the first. *)
Lemma Revert_again_witness :
  let s := fst (Snapshot (fst (Snapshot NewCachedBatch))) in
  let s' := mkState [∅; ∅; ∅] (mkCached NewBatch 1%nat 1 [0] [1%nat]) in
  Revert 0 s' = Some (s', None)
  /\ Revert 1 s' = Some (s', Some (Wrapf ErrInvalidDB "invalid snapshot number = %d" 1)).
Proof.
  intros s s'.
  assert (Hwf : wf s) by (apply wf_Snapshot, wf_Snapshot, wf_NewCachedBatch).
  destruct (Revert_again s s' 0 Hwf eq_refl) as [H0 H1].
  split; [exact H0|]. apply H1. lia.
Defined.

Section MoreWithHash.
Variable Hash160b : bytes -> bytes.
Variable BytesToCacheHash : bytes -> CacheHash.

#[local] Abbreviation hash := (hash Hash160b BytesToCacheHash).
#[local] Abbreviation cached_Put := (cached_Put Hash160b BytesToCacheHash).
#[local] Abbreviation cached_PutIfNotExists := (cached_PutIfNotExists Hash160b BytesToCacheHash).
#[local] Abbreviation cached_Delete := (cached_Delete Hash160b BytesToCacheHash).
#[local] Abbreviation Get := (Get Hash160b BytesToCacheHash).
#[local] Abbreviation run_op := (run_op Hash160b BytesToCacheHash).
#[local] Abbreviation run := (run Hash160b BytesToCacheHash).

(** X4.  No sequence of operations on a new cached batch panics: every
    [Revert] in it, valid token or not, finds its slices in range, and the
    batch keeps its shape. *)
Theorem operations_never_panic (os : list op) :
  exists s, run os NewCachedBatch = Some s /\ wf s.
Proof.
  destruct (run_defined Hash160b BytesToCacheHash os NewCachedBatch wf_NewCachedBatch)
    as [s Hs].
  exists s. split; [exact Hs|].
  exact (wf_run Hash160b BytesToCacheHash os _ _ wf_NewCachedBatch Hs).
Qed.

(** X5.  [Clear] empties the queue and the cache and drops every snapshot:
    afterwards every [Get] answers not-found, every [Revert] returns the
    invalid-snapshot error, and snapshot tokens start again at zero. *)
Theorem Clear_resets (s : state) :
  queue (cached_Clear s) = []
  /\ (forall ns k, Get ns k (cached_Clear s) = ([], Some ErrNotExist))
  /\ (forall t, Revert t (cached_Clear s) =
                Some (cached_Clear s,
                      Some (Wrapf ErrInvalidDB "invalid snapshot number = %d" t)))
  /\ snd (Snapshot (cached_Clear s)) = 0.
Proof.
  split; [reflexivity|]. split; [|split; [|reflexivity]].
  - intros ns k. rewrite Get_cache.
    replace (cache (cached_Clear s)) with (∅ : kvCache); [by rewrite lookup_empty|].
    unfold cache, cached_Clear, cache_Clear, deref; simpl.
    rewrite list_lookup_alter_eq. by destruct (caches s !! KVStoreCache (cb s)).
  - intros t. apply Revert_out_of_range. simpl. lia.
Qed.

(** X6.  [Put] and [Delete] on a cached batch stage their entries in call
    order behind what is queued already. *)
Theorem writes_queue_in_order (os : list op) : forall (s : state),
  forallb is_write os = true ->
  exists s', run os s = Some s' /\ queue s' = queue s ++ omap entry_of os.
Proof.
  induction os as [|o os IH]; intros s Hos; simpl in *.
  - exists s. by rewrite app_nil_r.
  - apply andb_true_iff in Hos as [Ho Hos].
    destruct o as [ns k v ef ea|ns k v ef ea|ns k ef ea| |t|]; try discriminate; simpl.
    + destruct (IH (cached_Put ns k v ef ea s) Hos) as (s' & Hrun & Hq).
      exists s'. split; [exact Hrun|]. rewrite Hq.
      unfold queue; simpl. by rewrite <- app_assoc.
    + destruct (IH (cached_Delete ns k ef ea s) Hos) as (s' & Hrun & Hq).
      exists s'. split; [exact Hrun|]. rewrite Hq.
      unfold queue; simpl. by rewrite <- app_assoc.
Qed.

(** X7.  The cached batch reads its own writes: after [Put] the key reads
    as put, after [Delete] it reads as not found, a [PutIfNotExists] that
    returned no error reads as put, and a key under another cache hash reads
    as before. *)
Theorem Get_after_write (ns : string) (k v : bytes) (ef : string)
    (ea : list string) (s : state) :
  wf s ->
  Get ns k (cached_Put ns k v ef ea s) = (v, None)
  /\ Get ns k (cached_Delete ns k ef ea s) = ([], Some ErrNotExist)
  /\ (forall s', cached_PutIfNotExists ns k v ef ea s = (s', None) ->
                 Get ns k s' = (v, None))
  /\ (forall ns' k', hash ns' k' <> hash ns k ->
        Get ns' k' (cached_Put ns k v ef ea s) = Get ns' k' s
        /\ Get ns' k' (cached_Delete ns k ef ea s) = Get ns' k' s).
Proof.
  intros (Ht & Hl & Hb & Ha & Hc & Hk). split; [|split; [|split]].
  - by rewrite Get_cache, cache_Put, lookup_insert_eq.
  - by rewrite Get_cache, cache_after_Delete.
  - intros s'. unfold Batch.cached_PutIfNotExists, WriteIfNotExist.
    destruct (deref (caches s) (KVStoreCache (cb s)) !! hash ns k); [discriminate|].
    intros [= <-]. rewrite Get_cache. unfold cache; simpl.
    by rewrite deref_alter_eq, lookup_insert_eq.
  - intros ns' k' Hne. split.
    + by rewrite !Get_cache, cache_Put, lookup_insert_ne.
    + rewrite !Get_cache. unfold cache at 1; simpl. unfold Evict.
      by rewrite deref_alter_eq, lookup_delete_ne.
Qed.

(** X8.  After a snapshot [t] of a batch in the shape every batch keeps,
    any sequence of puts, deletes, further snapshots and reverts to snapshots
    later than [t] runs without panic, and [Revert t] after it returns no
    error and restores the queue, the answer of every [Get], the tag and the
    snapshot stacks of the moment right after the snapshot. *)
Theorem Revert_round_trip (s : state) (os : list op) :
  wf s ->
  let s1 := fst (Snapshot s) in
  let t := snd (Snapshot s) in
  forallb (keeps t) os = true ->
  exists s2 s3,
    run os s1 = Some s2
    /\ Revert t s2 = Some (s3, None)
    /\ queue s3 = queue s1
    /\ (forall ns k, Get ns k s3 = Get ns k s1)
    /\ tag (cb s3) = tag (cb s1)
    /\ batchShots (cb s3) = batchShots (cb s1)
    /\ cacheShots (cb s3) = cacheShots (cb s1).
Proof. exact (Revert_restores_snapshot Hash160b BytesToCacheHash s os). Qed.

End MoreWithHash.

(** The cache hash used where a concrete one is needed: the namespace bytes
    followed by the key. *)
#[local] Abbreviation plain := (fun b : bytes => b).

(** The theorem on [Put] and [Delete] order at a put and a delete on a new
    batch. *)
Lemma writes_queue_in_order_witness :
  exists s',
    run plain plain [OpPut "ns" [x6b]%byte [x31]%byte "" []; OpDelete "ns" [x6b]%byte "" []]
      NewCachedBatch = Some s'
    /\ queue s' = [mkWriteInfo Put "ns" [x6b]%byte [x31]%byte "" [];
                   mkWriteInfo Delete "ns" [x6b]%byte [] "" []].
Proof.
  exact (writes_queue_in_order plain plain
           [OpPut "ns" [x6b]%byte [x31]%byte "" []; OpDelete "ns" [x6b]%byte "" []]
           NewCachedBatch eq_refl).
Defined.

(** The theorem on reading written keys at a new batch. *)
Lemma Get_after_write_witness :
  Get plain plain "ns" [x6b]%byte
    (cached_Put plain plain "ns" [x6b]%byte [x31]%byte "" [] NewCachedBatch)
  = ([x31]%byte, None).
Proof.
  exact (proj1 (Get_after_write plain plain "ns" [x6b]%byte [x31]%byte "" []
                  NewCachedBatch wf_NewCachedBatch)).
Defined.

(** The theorem on reverting after writes, with a put, a delete, a second
    snapshot and a revert to it between the snapshot and the revert. *)
Lemma Revert_round_trip_witness :
  let s := cached_Put plain plain "ns" [x6b]%byte [x31]%byte "" [] NewCachedBatch in
  let s1 := fst (Snapshot s) in
  exists s2 s3,
    run plain plain
      [OpPut "ns" [x6b]%byte [x32]%byte "" []; OpDelete "ns" [x6b]%byte "" [];
       OpSnapshot; OpRevert 1] s1 = Some s2
    /\ Revert 0 s2 = Some (s3, None)
    /\ queue s3 = queue s1
    /\ (forall ns k, Get plain plain ns k s3 = Get plain plain ns k s1)
    /\ tag (cb s3) = tag (cb s1)
    /\ batchShots (cb s3) = batchShots (cb s1)
    /\ cacheShots (cb s3) = cacheShots (cb s1).
Proof.
  intros s s1.
  exact (Revert_round_trip plain plain s
           [OpPut "ns" [x6b]%byte [x32]%byte "" []; OpDelete "ns" [x6b]%byte "" [];
            OpSnapshot; OpRevert 1]
           (wf_Put plain plain "ns" [x6b]%byte [x31]%byte "" [] _ wf_NewCachedBatch)
           eq_refl).
Defined.

End BatchFacts.

(** * Properties of the endorsement set *)

Module EndorsementFacts.
Import Endorsement.

#[local] Open Scope N_scope.

(** [e] is of the endorser and topic of [en]. *)
#[local] Abbreviation same_pair e en :=
  (for_pair (Endorser en) (Topic (vote en)) e).

Lemma skip_iff (e en : Endorsement) :
  bool_decide (Endorser e ≠ Endorser en)
  || bool_decide (Topic (vote e) ≠ Topic (vote en)) = negb (same_pair e en).
Proof.
  unfold for_pair.
  destruct (decide (Endorser e = Endorser en)) as [Ha|Ha];
    destruct (decide (Topic (vote e) = Topic (vote en))) as [Ht|Ht];
    repeat first [rewrite (bool_decide_eq_true_2 _ Ha)
                 |rewrite (bool_decide_eq_false_2 _ Ha)
                 |rewrite (bool_decide_eq_true_2 _ Ht)
                 |rewrite (bool_decide_eq_false_2 _ Ht)];
    repeat match goal with
      | |- context [bool_decide (?x ≠ ?y)] =>
          first [rewrite (bool_decide_eq_true_2 (x ≠ y)) by assumption
                |rewrite (bool_decide_eq_false_2 (x ≠ y)) by (intros ?; contradiction)]
      end;
    reflexivity.
Qed.

Lemma same_pair_for_pair (e en : Endorsement) a t :
  same_pair e en = true -> for_pair a t e = for_pair a t en.
Proof.
  unfold for_pair. intros H. apply andb_true_iff in H as [Ha Ht].
  apply bool_decide_eq_true in Ha, Ht. by rewrite Ha, Ht.
Qed.

(** The loop on a list whose first endorsement of the pair is known. *)
Lemma scan_first (en e : Endorsement) (l1 l2 : list Endorsement) :
  Forall (fun x => same_pair x en = false) l1 ->
  same_pair e en = true ->
  scan en (l1 ++ e :: l2) =
  if Round (vote e) <? Round (vote en) then Replaced (l1 ++ en :: l2) else Expired.
Proof.
  intros Hl1 He. induction Hl1 as [|x l1 Hx _ IH]; simpl.
  - by rewrite skip_iff, He.
  - rewrite skip_iff, Hx, IH. simpl.
    by destruct (Round (vote e) <? Round (vote en)).
Qed.

(** What the loop of [AddEndorsement] found, case by case. *)
Lemma scan_cases (en : Endorsement) (es : list Endorsement) :
  match scan en es with
  | NotFound => Forall (fun e => same_pair e en = false) es
  | Replaced es' =>
      exists l1 e l2,
        es = l1 ++ e :: l2 /\ es' = l1 ++ en :: l2
        /\ Forall (fun x => same_pair x en = false) l1
        /\ same_pair e en = true
        /\ Round (vote e) < Round (vote en)
  | Expired =>
      exists l1 e l2,
        es = l1 ++ e :: l2
        /\ Forall (fun x => same_pair x en = false) l1
        /\ same_pair e en = true
        /\ Round (vote en) <= Round (vote e)
  end.
Proof.
  induction es as [|e es IH]; simpl; [constructor|].
  rewrite skip_iff. destruct (same_pair e en) eqn:Hp; simpl.
  - destruct (N.ltb_spec (Round (vote e)) (Round (vote en))) as [Hlt|Hge].
    + exists [], e, es. repeat split; auto.
    + exists [], e, es. repeat split; auto.
  - destruct (scan en es) as [es'| |].
    + destruct IH as (l1 & e0 & l2 & -> & -> & Hl1 & Hm & Hr).
      exists (e :: l1), e0, l2. repeat split; auto.
    + destruct IH as (l1 & e0 & l2 & -> & Hl1 & Hm & Hr).
      exists (e :: l1), e0, l2. repeat split; auto.
    + constructor; auto.
Qed.

Lemma filter_none (p : Endorsement -> bool) (l : list Endorsement) :
  Forall (fun x => p x = false) l -> List.filter p l = [].
Proof.
  induction 1 as [|x l Hx _ IH]; simpl; [reflexivity|]. by rewrite Hx.
Qed.

Lemma filter_unmatched (en : Endorsement) a t (l : list Endorsement) :
  for_pair a t en = true ->
  Forall (fun x => same_pair x en = false) l ->
  List.filter (for_pair a t) l = [].
Proof.
  intros Hen Hl. apply filter_none.
  eapply Forall_impl; [|exact Hl]. intros x Hx. simpl in Hx.
  unfold for_pair in *. apply andb_true_iff in Hen as [Ha Ht].
  apply bool_decide_eq_true in Ha, Ht. by subst a t.
Qed.

(** In a set with one endorsement per pair, the first entry of a pair is the
    only one. *)
Lemma first_is_only (s : EndorsementSet) (e0 : Endorsement) l1 l2 a t :
  one_per_pair s ->
  endorsements s = l1 ++ e0 :: l2 ->
  for_pair a t e0 = true ->
  retained a t s = [e0].
Proof.
  intros Huniq Hes He0. specialize (Huniq a t).
  unfold retained in *. rewrite Hes in *.
  rewrite List.filter_app in *. simpl in *. rewrite He0 in *.
  rewrite length_app in Huniq. simpl in Huniq.
  destruct (List.filter (for_pair a t) l1); [|simpl in Huniq; lia].
  destruct (List.filter (for_pair a t) l2); [reflexivity|simpl in Huniq; lia].
Qed.

Section WithSignatures.
Variable VerifySignature : Endorsement -> bool.

#[local] Abbreviation AddEndorsement := (AddEndorsement VerifySignature).
#[local] Abbreviation AddAll := (AddAll VerifySignature).

Lemma AddEndorsement_error_unchanged en s err :
  snd (AddEndorsement en s) = Some err -> fst (AddEndorsement en s) = s.
Proof.
  unfold Endorsement.AddEndorsement.
  destruct (negb (bool_decide (BlkHash (vote en) = blkHash s))); [done|].
  destruct (negb (VerifySignature en)); [done|].
  destruct (scan en (endorsements s)); simpl; [discriminate|done|discriminate].
Qed.

(** C7, as amended.  [AddEndorsement] answers a block hash other than the
    set's with the invalid-hash error, whatever else holds, and a matching
    hash with a signature that does not verify with the invalid-signature
    error.  Past both checks the first endorsement of the list with the
    endorser and topic of the new one decides, and no later one is looked
    at: if its round is equal or higher the answer is the
    expired-endorsement error, if its round is lower the new endorsement
    takes its place and no error is returned.  In a set that keeps one
    endorsement per endorser and topic, as every set grown by
    [AddEndorsement] from a new one does, any retained endorsement of the
    pair with an equal or higher round therefore gives the
    expired-endorsement error.  Whenever an error is returned the set is as
    before. *)
Theorem AddEndorsement_errors (en : Endorsement) (s : EndorsementSet) :
  (BlkHash (vote en) ≠ blkHash s ->
     AddEndorsement en s = (s, Some ErrInvalidHash))
  /\ (BlkHash (vote en) = blkHash s -> VerifySignature en = false ->
      AddEndorsement en s = (s, Some ErrInvalidEndorsement))
  /\ (BlkHash (vote en) = blkHash s -> VerifySignature en = true ->
      forall l1 e l2,
        endorsements s = l1 ++ e :: l2 ->
        Forall (fun x => same_pair x en = false) l1 ->
        same_pair e en = true ->
        (Round (vote en) <= Round (vote e) ->
         AddEndorsement en s = (s, Some ErrExpiredEndorsement))
        /\ (Round (vote e) < Round (vote en) ->
            AddEndorsement en s
            = (mkSet (blkHash s) (round s) (l1 ++ en :: l2), None)))
  /\ (BlkHash (vote en) = blkHash s -> VerifySignature en = true ->
      one_per_pair s ->
      (exists e, e ∈ endorsements s
                 /\ Endorser e = Endorser en
                 /\ Topic (vote e) = Topic (vote en)
                 /\ Round (vote en) <= Round (vote e)) ->
      AddEndorsement en s = (s, Some ErrExpiredEndorsement))
  /\ (forall err, snd (AddEndorsement en s) = Some err ->
      fst (AddEndorsement en s) = s).
Proof.
  split; [|split; [|split; [|split]]].
  - intros Hne. unfold Endorsement.AddEndorsement.
    by rewrite (bool_decide_eq_false_2 _ Hne).
  - intros Heq Hsig. unfold Endorsement.AddEndorsement.
    by rewrite (bool_decide_eq_true_2 _ Heq), Hsig.
  - intros Heq Hsig l1 e l2 Hes Hl1 He.
    unfold Endorsement.AddEndorsement.
    rewrite (bool_decide_eq_true_2 _ Heq), Hsig. simpl.
    rewrite Hes, (scan_first en e l1 l2 Hl1 He).
    split; intros Hr.
    + by rewrite (proj2 (N.ltb_ge _ _) Hr).
    + by rewrite (proj2 (N.ltb_lt _ _) Hr).
  - intros Heq Hsig Huniq (e & Hin & Ha & Ht & Hr).
    unfold Endorsement.AddEndorsement.
    rewrite (bool_decide_eq_true_2 _ Heq), Hsig. simpl.
    assert (Hp : same_pair e en = true).
    { unfold for_pair. by rewrite !bool_decide_eq_true_2. }
    assert (Hret : e ∈ retained (Endorser en) (Topic (vote en)) s).
    { unfold retained. apply list_elem_of_In, List.filter_In.
      split; [by apply list_elem_of_In|exact Hp]. }
    pose proof (scan_cases en (endorsements s)) as Hscan.
    destruct (scan en (endorsements s)) as [es'| |].
    + destruct Hscan as (l1 & e0 & l2 & Hes & _ & _ & Hm & Hlt).
      rewrite (first_is_only s e0 l1 l2 _ _ Huniq Hes Hm) in Hret.
      apply list_elem_of_singleton in Hret. subst e0. lia.
    + reflexivity.
    + unfold retained in Hret. rewrite (filter_none _ _ Hscan) in Hret.
      by apply elem_of_nil in Hret.
  - apply AddEndorsement_error_unchanged.
Qed.

(** ** The retained round *)

Lemma tallied_one_per_pair prev s : tallied prev s -> one_per_pair s.
Proof.
  intros H a t. specialize (H a t).
  destruct (retained a t s) as [|e [|e' l]]; simpl; [lia|lia|contradiction].
Qed.

Lemma max_round_app (l l' : list N) :
  max_round (l ++ l') = N.max (max_round l) (max_round l').
Proof.
  unfold max_round. induction l as [|x l IH]; simpl.
  - by rewrite N.max_0_l.
  - rewrite IH. by rewrite N.max_assoc.
Qed.

Lemma tallied_AddEndorsement prev en s :
  tallied prev s ->
  tallied (fun a t => prev a t ++ added_by a t en (snd (AddEndorsement en s)))
    (fst (AddEndorsement en s)).
Proof.
  intros Htal.
  assert (Hsame : forall err,
    tallied (fun a t => prev a t ++ added_by a t en (Some err)) s).
  { intros err a t. unfold added_by. rewrite andb_false_r, app_nil_r. apply Htal. }
  unfold Endorsement.AddEndorsement.
  destruct (negb (bool_decide (BlkHash (vote en) = blkHash s))); [apply Hsame|].
  destruct (negb (VerifySignature en)); [apply Hsame|].
  pose proof (scan_cases en (endorsements s)) as Hscan.
  destruct (scan en (endorsements s)) as [es'| |]; [| apply Hsame |]; simpl.
  - destruct Hscan as (l1 & e0 & l2 & Hes & -> & Hl1 & Hm & Hlt).
    intros a t. specialize (Htal a t).
    unfold retained, added_by in *; simpl. rewrite Hes in Htal.
    rewrite List.filter_app in *. simpl in *.
    rewrite (same_pair_for_pair e0 en a t Hm) in Htal.
    destruct (for_pair a t en) eqn:Hen; simpl.
    + rewrite (filter_unmatched en a t l1 Hen Hl1) in *. simpl in *.
      destruct (List.filter (for_pair a t) l2); [|contradiction].
      destruct Htal as [Hne Hmax]. split.
      * intros Hnil. by apply app_eq_nil in Hnil as [_ ?].
      * rewrite max_round_app, <- Hmax. simpl. lia.
    + by rewrite app_nil_r.
  - intros a t. specialize (Htal a t).
    unfold retained, added_by in *; simpl.
    rewrite List.filter_app. simpl.
    destruct (for_pair a t en) eqn:Hen; simpl.
    + rewrite (filter_unmatched en a t _ Hen Hscan) in *. simpl.
      rewrite Htal. simpl. split; [discriminate|lia].
    + by rewrite !app_nil_r.
Qed.

Lemma added_rounds_cons a t en ens r rs :
  added_rounds a t (en :: ens) (r :: rs) = added_by a t en r ++ added_rounds a t ens rs.
Proof.
  simpl. unfold added_by.
  by destruct (for_pair a t en && bool_decide (r = None)).
Qed.

Lemma tallied_AddAll ens : forall prev s,
  tallied prev s ->
  tallied (fun a t => prev a t ++ added_rounds a t ens (snd (AddAll ens s)))
    (fst (AddAll ens s)).
Proof.
  induction ens as [|en ens IH]; intros prev s Htal.
  - simpl. intros a t. rewrite app_nil_r. apply Htal.
  - pose proof (tallied_AddEndorsement prev en s Htal) as Hstep.
    simpl. destruct (Endorsement.AddEndorsement VerifySignature en s) as [s1 r] eqn:Hadd.
    simpl in Hstep. specialize (IH _ s1 Hstep).
    destruct (Endorsement.AddAll VerifySignature ens s1) as [s2 rs] eqn:Hall.
    simpl in *. intros a t. specialize (IH a t).
    change (if for_pair a t en && bool_decide (r = None)
            then Round (vote en) :: added_rounds a t ens rs
            else added_rounds a t ens rs)
      with (added_rounds a t (en :: ens) (r :: rs)).
    rewrite added_rounds_cons, app_assoc. exact IH.
Qed.

(** Every set grown from a new one keeps one endorsement per pair. *)
Lemma one_per_pair_AddAll blkHash ens :
  one_per_pair (fst (AddAll ens (NewSet blkHash))).
Proof.
  eapply tallied_one_per_pair.
  apply (tallied_AddAll ens (fun _ _ => [])).
  intros a t. reflexivity.
Qed.

(** C2.  After any sequence of [AddEndorsement] calls on a new set, the set
    retains for every endorser and topic at most one endorsement: none when
    no call for the pair returned without error, and otherwise one whose
    round is the highest round among the calls for the pair that returned no
    error. *)
Theorem AddEndorsement_keeps_highest_round (blkHash : bytes)
    (ens : list Endorsement) (a : string) (t : ConsensusVoteTopic) :
  let s := fst (AddAll ens (NewSet blkHash)) in
  let rounds := added_rounds a t ens (snd (AddAll ens (NewSet blkHash))) in
  (length (retained a t s) <= 1)%nat
  /\ (retained a t s = [] <-> rounds = [])
  /\ (forall e, e ∈ retained a t s -> Round (vote e) = max_round rounds).
Proof.
  intros s rounds.
  pose proof (tallied_AddAll ens (fun _ _ => []) (NewSet blkHash)) as Htal.
  specialize (Htal (fun _ _ => eq_refl) a t). simpl in Htal.
  fold s rounds in Htal.
  destruct (retained a t s) as [|e [|e' l]]; [| |contradiction].
  - repeat split; auto. intros e He. by apply elem_of_nil in He.
  - destruct Htal as [Hne Hmax]. repeat split; simpl; auto.
    + discriminate.
    + intros Hnil. contradiction.
    + intros e1 He1. apply list_elem_of_singleton in He1. by subst e1.
Qed.

End WithSignatures.

(** ** The scenarios of the specification *)

(** Endorsement replacement: a higher round replaces the retained
    endorsement of the pair, the lower round is then refused as expired. *)
Example replacement_scenario :
  let h := [xaa; xaa]%byte in
  let lock1 := mkEndorsement "A" [] (mkVote h 5 1 LOCK) true [] in
  let lock2 := mkEndorsement "A" [] (mkVote h 5 2 LOCK) true [] in
  let s1 := fst (AddEndorsement (fun _ => true) lock1 (NewSet h)) in
  let s2 := fst (AddEndorsement (fun _ => true) lock2 s1) in
  endorsements s1 = [lock1]
  /\ AddEndorsement (fun _ => true) lock2 s1 = (mkSet h 0 [lock2], None)
  /\ AddEndorsement (fun _ => true) lock1 s2 = (s2, Some ErrExpiredEndorsement)
  /\ AddEndorsement (fun _ => true) lock2 s2 = (s2, Some ErrExpiredEndorsement).
Proof. vm_compute. repeat split. Qed.

(** An endorsement of another block hash is refused and the set keeps its
    size. *)
Example wrong_hash_scenario :
  let s := NewSet [xaa; xaa]%byte in
  let e := mkEndorsement "A" [] (mkVote [xbb; xbb]%byte 5 1 LOCK) true [] in
  AddEndorsement (fun _ => true) e s = (s, Some ErrInvalidHash).
Proof. vm_compute. reflexivity. Qed.

(** ** Adding again, and sets not grown from a new one *)

Lemma scan_none (en : Endorsement) (es : list Endorsement) :
  Forall (fun x => same_pair x en = false) es -> scan en es = NotFound.
Proof.
  induction 1 as [|x l Hx _ IH]; simpl; [reflexivity|].
  by rewrite skip_iff, Hx, IH.
Qed.

Lemma same_pair_self (en : Endorsement) : same_pair en en = true.
Proof. unfold for_pair. by rewrite !bool_decide_eq_true_2. Qed.

Section MoreWithSignatures.
Variable VerifySignature : Endorsement -> bool.

#[local] Abbreviation AddEndorsement := (AddEndorsement VerifySignature).

(** How a call that returned no error changed the list. *)
Lemma AddEndorsement_success en s :
  snd (AddEndorsement en s) = None ->
  BlkHash (vote en) = blkHash s
  /\ VerifySignature en = true
  /\ exists l1 l2,
       Forall (fun x => same_pair x en = false) l1
       /\ fst (AddEndorsement en s) = mkSet (blkHash s) (round s) (l1 ++ en :: l2)
       /\ ((endorsements s = l1 /\ l2 = [])
           \/ exists e0, endorsements s = l1 ++ e0 :: l2 /\ same_pair e0 en = true).
Proof.
  unfold Endorsement.AddEndorsement.
  destruct (decide (BlkHash (vote en) = blkHash s)) as [Hh|Hh].
  2:{ by rewrite (bool_decide_eq_false_2 _ Hh). }
  rewrite (bool_decide_eq_true_2 _ Hh). simpl.
  destruct (VerifySignature en) eqn:Hsig; [|discriminate]. simpl.
  pose proof (scan_cases en (endorsements s)) as Hscan.
  destruct (scan en (endorsements s)) as [es'| |]; [|discriminate|]; simpl; intros _.
  - destruct Hscan as (l1 & e0 & l2 & Hes & -> & Hl1 & Hm & _).
    repeat split; auto. exists l1, l2. repeat split; auto. right. by exists e0.
  - repeat split; auto. exists (endorsements s), []. repeat split; auto.
Qed.

(** X9.  After [AddEndorsement] has returned no error the endorsement is in
    the set and the block hash and locked round of the set are as before;
    the same call made again returns the expired-endorsement error and
    changes nothing. *)
Theorem AddEndorsement_then_again (en : Endorsement) (s : EndorsementSet) :
  snd (AddEndorsement en s) = None ->
  let s' := fst (AddEndorsement en s) in
  en ∈ endorsements s'
  /\ blkHash s' = blkHash s
  /\ round s' = round s
  /\ AddEndorsement en s' = (s', Some ErrExpiredEndorsement).
Proof.
  intros Hok s'.
  destruct (AddEndorsement_success en s Hok) as (Hh & Hsig & l1 & l2 & Hl1 & Hs' & _).
  subst s'. rewrite Hs'. simpl. repeat split.
  - apply elem_of_app. right. apply elem_of_cons. by left.
  - unfold Endorsement.AddEndorsement; simpl.
    rewrite (bool_decide_eq_true_2 _ Hh), Hsig. simpl.
    rewrite (scan_first en en l1 l2 Hl1 (same_pair_self en)).
    by rewrite N.ltb_irrefl.
Qed.

(** X10.  [AddEndorsement] keeps a set that has one endorsement per endorser
    and topic that way, wherever the set came from. *)
Theorem AddEndorsement_keeps_one_per_pair (en : Endorsement) (s : EndorsementSet) :
  one_per_pair s -> one_per_pair (fst (AddEndorsement en s)).
Proof.
  intros Huniq.
  destruct (snd (AddEndorsement en s)) as [err|] eqn:Hres.
  { by rewrite (AddEndorsement_error_unchanged VerifySignature en s err Hres). }
  destruct (AddEndorsement_success en s Hres)
    as (_ & _ & l1 & l2 & Hl1 & -> & [[Hes ->]|(e0 & Hes & Hm)]);
    intros a t; specialize (Huniq a t); unfold retained in *; simpl;
    rewrite Hes in Huniq; rewrite List.filter_app; simpl.
  - destruct (for_pair a t en) eqn:Hen; simpl.
    + rewrite (filter_unmatched en a t l1 Hen Hl1). simpl. lia.
    + by rewrite app_nil_r.
  - rewrite List.filter_app in Huniq. simpl in Huniq.
    rewrite <- (same_pair_for_pair e0 en a t Hm).
    destruct (for_pair a t e0); rewrite length_app in *; simpl in *; lia.
Qed.

End MoreWithSignatures.

(** The theorem on adding again, at a first endorsement added to a new
    set. *)
Lemma AddEndorsement_then_again_witness :
  let en := mkEndorsement "A" [] (mkVote [xaa]%byte 5 1 LOCK) true [] in
  let s' := fst (AddEndorsement (fun _ => true) en (NewSet [xaa]%byte)) in
  en ∈ endorsements s'
  /\ blkHash s' = [xaa]%byte
  /\ round s' = 0
  /\ AddEndorsement (fun _ => true) en s' = (s', Some ErrExpiredEndorsement).
Proof.
  intros en s'.
  exact (AddEndorsement_then_again (fun _ => true) en (NewSet [xaa]%byte) eq_refl).
Defined.

(** The theorem on keeping one endorsement per pair, at a new set. *)
Lemma AddEndorsement_keeps_one_per_pair_witness :
  one_per_pair
    (fst (AddEndorsement (fun _ => true)
            (mkEndorsement "A" [] (mkVote [xaa]%byte 5 1 LOCK) true [])
            (NewSet [xaa]%byte))).
Proof.
  apply AddEndorsement_keeps_one_per_pair.
  intros a t. simpl. lia.
Defined.

(** ** Counting endorsements *)

Lemma voters_spec (topics : gmap ConsensusVoteTopic bool) (es : list Endorsement)
    (a : string) :
  a ∈ voters topics es <->
  exists e, e ∈ es /\ endorser e = a /\ is_Some (topics !! Topic (vote e)).
Proof.
  induction es as [|e es IH]; simpl.
  - split; [set_solver|]. intros (e & He & _). by apply elem_of_nil in He.
  - destruct (topics !! Topic (vote e)) as [b|] eqn:Ht.
    + rewrite elem_of_union, elem_of_singleton, IH. split.
      * intros [->|(e' & He' & Ha & Hs)].
        -- exists e. repeat split; [by left|by eexists].
        -- exists e'. repeat split; [by right|done..].
      * intros (e' & He' & Ha & Hs). apply elem_of_cons in He' as [->|He'].
        -- by left.
        -- right. by exists e'.
    + rewrite IH. split.
      * intros (e' & He' & Ha & Hs). exists e'. repeat split; [by right|done..].
      * intros (e' & He' & Ha & Hs). apply elem_of_cons in He' as [->|He'].
        -- rewrite Ht in Hs. by destruct Hs.
        -- by exists e'.
Qed.

Lemma voters_app (topics : gmap ConsensusVoteTopic bool) (l1 l2 : list Endorsement) :
  voters topics (l1 ++ l2) = voters topics l1 ∪ voters topics l2.
Proof.
  induction l1 as [|e l1 IH]; simpl; [by rewrite union_empty_l_L|].
  destruct (topics !! Topic (vote e)); rewrite IH; [by rewrite (assoc_L (∪))|done].
Qed.

Lemma inter_with_member (a : string) (V D : gset string) :
  a ∈ D -> ({[a]} ∪ V) ∩ D = {[a]} ∪ (V ∩ (D ∖ {[a]})).
Proof.
  intros Ha. apply set_eq. intros x.
  rewrite !elem_of_union, !elem_of_intersection, elem_of_union,
    elem_of_difference, !elem_of_singleton.
  destruct (decide (x = a)) as [->|Hne]; tauto.
Qed.

Lemma inter_with_stranger (a : string) (V D : gset string) :
  a ∉ D -> ({[a]} ∪ V) ∩ D = V ∩ D.
Proof.
  intros Ha. apply set_eq. intros x.
  rewrite !elem_of_intersection, elem_of_union, elem_of_singleton.
  split; [|tauto]. intros [[->|Hx] HD]; [contradiction|tauto].
Qed.

Lemma count_valid_spec (topics : gmap ConsensusVoteTopic bool)
    (es : list Endorsement) : forall (endorserSet : gmap string bool) (cnt : Z),
  count_valid topics endorserSet cnt es
  = (cnt + Z.of_nat (size (voters topics es ∩ dom endorserSet)))%Z.
Proof.
  induction es as [|e es IH]; intros E cnt; simpl.
  - rewrite intersection_empty_l_L, size_empty. lia.
  - destruct (topics !! Topic (vote e)) as [b|]; [|apply IH].
    destruct (E !! endorser e) as [b'|] eqn:HE.
    + rewrite IH, dom_delete_L.
      assert (Hin : endorser e ∈ dom E) by (apply elem_of_dom; by eexists).
      rewrite (inter_with_member _ _ _ Hin).
      rewrite (size_union (C := gset string) {[endorser e]}), size_singleton; [lia|].
      intros x Hx1 Hx2. apply elem_of_singleton in Hx1 as ->.
      apply elem_of_intersection in Hx2 as [_ Hx2].
      apply elem_of_difference in Hx2 as [_ Hx2].
      by apply Hx2, elem_of_singleton.
    + rewrite IH. apply not_elem_of_dom in HE.
      by rewrite (inter_with_stranger _ _ _ HE).
Qed.

Lemma dom_endorserSet (endorsers : list string) : forall (m : gmap string bool),
  dom (foldl (fun m endorser => <[endorser := true]> m) m endorsers)
  = list_to_set endorsers ∪ dom m.
Proof.
  induction endorsers as [|a l IH]; intros m; simpl.
  - by rewrite union_empty_l_L.
  - rewrite IH, dom_insert_L.
    rewrite (union_comm_L {[a]} (list_to_set l)), <- union_assoc_L. reflexivity.
Qed.

Lemma NumOfValidEndorsements_size (topics : gmap ConsensusVoteTopic bool)
    (endorsers : list string) (s : EndorsementSet) :
  NumOfValidEndorsements topics endorsers s
  = Z.of_nat (size (voters topics (endorsements s) ∩ list_to_set endorsers)).
Proof.
  unfold NumOfValidEndorsements. rewrite count_valid_spec, dom_endorserSet.
  rewrite dom_empty_L, union_empty_r_L. lia.
Qed.

(** X11.  [NumOfValidEndorsements] is the number of distinct endorsers of
    the given list that have in the set an endorsement on a topic that is a
    key of [topics], whatever value the key has: an endorser counts once
    however many of its endorsements qualify. *)
Theorem NumOfValidEndorsements_counts (topics : gmap ConsensusVoteTopic bool)
    (endorsers : list string) (s : EndorsementSet) :
  NumOfValidEndorsements topics endorsers s
  = Z.of_nat (size (voters topics (endorsements s) ∩ list_to_set endorsers))
  /\ forall a,
       a ∈ voters topics (endorsements s) ∩ list_to_set endorsers <->
       a ∈ endorsers
       /\ exists e, e ∈ endorsements s /\ endorser e = a
                    /\ is_Some (topics !! Topic (vote e)).
Proof.
  split; [apply NumOfValidEndorsements_size|].
  intros a. rewrite elem_of_intersection, elem_of_list_to_set, voters_spec. tauto.
Qed.

Lemma size_inter_add (a : string) (V D : gset string) :
  (size (V ∩ D) <= size ((V ∪ {[a]}) ∩ D) <= size (V ∩ D) + 1)%nat.
Proof.
  split.
  - apply subseteq_size. intros x.
    rewrite !elem_of_intersection, elem_of_union. tauto.
  - transitivity (size ((V ∩ D) ∪ ({[a]} : gset string))).
    + apply subseteq_size. intros x.
      rewrite !elem_of_intersection, !elem_of_union, elem_of_intersection. tauto.
    + rewrite size_union_alt.
      assert (size (({[a]} : gset string) ∖ (V ∩ D)) <= 1)%nat; [|lia].
      rewrite <- (size_singleton (C := gset string) a).
      apply subseteq_size. intros x. rewrite elem_of_difference. tauto.
Qed.

Section CountWithSignatures.
Variable VerifySignature : Endorsement -> bool.

(** X12.  [AddEndorsement] never lowers [NumOfValidEndorsements] and raises
    it by one at most, for any topics and endorsers. *)
Theorem AddEndorsement_count_grows (topics : gmap ConsensusVoteTopic bool)
    (endorsers : list string) (en : Endorsement) (s : EndorsementSet) :
  let s' := fst (AddEndorsement VerifySignature en s) in
  (NumOfValidEndorsements topics endorsers s
   <= NumOfValidEndorsements topics endorsers s'
   <= NumOfValidEndorsements topics endorsers s + 1)%Z.
Proof.
  intros s'. subst s'.
  destruct (snd (AddEndorsement VerifySignature en s)) as [err|] eqn:Hres.
  { rewrite (AddEndorsement_error_unchanged VerifySignature en s err Hres). lia. }
  rewrite !NumOfValidEndorsements_size.
  destruct (AddEndorsement_success VerifySignature en s Hres)
    as (_ & _ & l1 & l2 & Hl1 & -> & [[Hes ->]|(e0 & Hes & Hm)]);
    rewrite Hes; simpl; rewrite !voters_app; simpl.
  - destruct (topics !! Topic (vote en)).
    + rewrite union_empty_r_L.
      pose proof (size_inter_add (endorser en) (voters topics l1)
                    (list_to_set endorsers)). lia.
    + rewrite union_empty_r_L. lia.
  - unfold for_pair in Hm. apply andb_true_iff in Hm as [Ha Ht].
    apply bool_decide_eq_true in Ha, Ht. unfold Endorser in Ha.
    rewrite Ha, Ht. lia.
Qed.

End CountWithSignatures.

(** ** To the wire and back *)

Section WithProto.
Variable EndorsePb : Type.
Variable convError : Type.
Variable FromProtoMsg : EndorsePb -> Endorsement + convError.
Variable ToProtoMsg : Endorsement -> EndorsePb.

#[local] Abbreviation from_loop := (from_loop EndorsePb convError FromProtoMsg).
#[local] Abbreviation FromProto := (FromProto EndorsePb convError FromProtoMsg).
#[local] Abbreviation ToProto := (ToProto EndorsePb ToProtoMsg).
#[local] Abbreviation converts pb e := (FromProtoMsg pb = inl e).

Lemma from_loop_all (pbs : list EndorsePb) (es : list Endorsement) :
  Forall2 (fun pb e => converts pb e) pbs es ->
  forall acc, from_loop pbs acc = (acc ++ es, None).
Proof.
  induction 1 as [|pb e pbs es Hpb _ IH]; intros acc; simpl.
  - by rewrite app_nil_r.
  - rewrite Hpb, IH. by rewrite <- app_assoc.
Qed.

Lemma from_loop_stops (l1 : list EndorsePb) (es1 : list Endorsement)
    (bad : EndorsePb) (err : convError) (l2 : list EndorsePb) :
  Forall2 (fun pb e => converts pb e) l1 es1 ->
  FromProtoMsg bad = inr err ->
  forall acc, from_loop (l1 ++ bad :: l2) acc = (acc ++ es1, Some err).
Proof.
  intros Hl1 Hbad. induction Hl1 as [|pb e pbs es Hpb _ IH]; intros acc; simpl.
  - by rewrite Hbad, app_nil_r.
  - rewrite Hpb, IH. by rewrite <- app_assoc.
Qed.

(** X13.  When every endorsement converts back from its own message,
    [FromProto] of [ToProto] of a set returns no error and gives the set
    back: block hash, locked round and the endorsements in their order,
    whatever the receiving set held before. *)
Theorem FromProto_ToProto (s s0 : EndorsementSet) :
  (forall e, FromProtoMsg (ToProtoMsg e) = inl e) ->
  FromProto (ToProto s) s0 = (s, None).
Proof.
  intros Hround. unfold Endorsement.FromProto, Endorsement.ToProto; simpl.
  rewrite (from_loop_all _ (endorsements s)).
  - by destruct s.
  - induction (endorsements s) as [|e es IH]; constructor; auto.
Qed.

(** X14.  [FromProto] is not all or nothing: when a message of the list
    does not convert, it returns that error with the receiving set already
    overwritten, holding the block hash and round of the message and the
    endorsements converted before the failing one. *)
Theorem FromProto_stops_at_first_error (l1 : list EndorsePb)
    (es1 : list Endorsement) (bad : EndorsePb) (err : convError)
    (l2 : list EndorsePb) (h : bytes) (r : N) (s0 : EndorsementSet) :
  Forall2 (fun pb e => converts pb e) l1 es1 ->
  FromProtoMsg bad = inr err ->
  FromProto (mkSetPb EndorsePb h r (l1 ++ bad :: l2)) s0 = (mkSet h r es1, Some err).
Proof.
  intros Hl1 Hbad. unfold Endorsement.FromProto; simpl.
  by rewrite (from_loop_stops l1 es1 bad err l2 Hl1 Hbad).
Qed.

End WithProto.

(** The round trip with the endorsement as its own message. *)
Lemma FromProto_ToProto_witness :
  let e := mkEndorsement "A" [] (mkVote [xaa]%byte 5 1 LOCK) true [] in
  let s := mkSet [xaa]%byte 3 [e] in
  FromProto Endorsement unit inl (ToProto Endorsement id s) (NewSet []) = (s, None).
Proof.
  intros e s.
  exact (FromProto_ToProto Endorsement unit inl id s (NewSet []) (fun _ => eq_refl)).
Defined.

(** The failure with a conversion that refuses endorsements of decision
    [false]: the second message fails, the first is in the set. *)
Lemma FromProto_stops_at_first_error_witness :
  let conv := fun e : Endorsement => if decision e then inl e else inr tt in
  let e1 := mkEndorsement "A" [] (mkVote [xaa]%byte 5 1 LOCK) true [] in
  let e2 := mkEndorsement "B" [] (mkVote [xaa]%byte 5 1 LOCK) false [] in
  FromProto Endorsement unit conv (mkSetPb Endorsement [xaa]%byte 3 [e1; e2; e1])
    (NewSet [xbb]%byte)
  = (mkSet [xaa]%byte 3 [e1], Some tt).
Proof.
  intros conv e1 e2.
  apply (FromProto_stops_at_first_error Endorsement unit conv [e1] [e1] e2 tt [e1]).
  - by repeat constructor.
  - reflexivity.
Defined.

(** C7, where it fails as first stated.  A set read by [FromProto] from a
    message that carries two endorsements of endorser A on the LOCK topic,
    of rounds 1 and 5, is given a third of round 3.  The retained
    endorsement of round 5 has the same endorser and topic and a higher
    round, yet no error is returned: round 3 takes the place of round 1. *)
Lemma AddEndorsement_after_FromProto_not_expired :
  let h := [xaa]%byte in
  let lock r := mkEndorsement "A" [] (mkVote h 5 r LOCK) true [] in
  let s := fst (FromProto Endorsement unit (fun e => inl e)
                  (mkSetPb Endorsement h 0 [lock 1; lock 5]) (NewSet h)) in
  endorsements s = [lock 1; lock 5]
  /\ lock 5 ∈ endorsements s
  /\ Endorser (lock 5) = Endorser (lock 3)
  /\ Topic (vote (lock 5)) = Topic (vote (lock 3))
  /\ Round (vote (lock 3)) <= Round (vote (lock 5))
  /\ AddEndorsement (fun _ => true) (lock 3) s = (mkSet h 0 [lock 3; lock 5], None).
Proof.
  intros h lock s.
  split; [reflexivity|]. split.
  { apply elem_of_cons. right. apply elem_of_cons. by left. }
  split; [reflexivity|]. split; [reflexivity|]. split; [simpl; lia|].
  reflexivity.
Qed.

End EndorsementFacts.

(** * Properties of the sync worker *)

Module BlockSyncFacts.
Import BlockSync.

(** The request sent for an interval to a peer. *)
#[local] Abbreviation request_to p interval :=
  (mkUnicast p (mkBlockSync (Start interval) (End_ interval))).

(** The loop, from any index that is not negative: it ends, adds one
    request per interval to those sent before, addresses them to the peers in
    turn, and leaves an index that is not negative. *)
Lemma sync_loop_spec (peers : list peer) (intervals : list syncBlocksInterval) :
  peers <> [] ->
  forall (i : Z) (sent : list unicast),
    0 <= i ->
    exists i' sent',
      sync_loop peers intervals i sent = Some (i', sent ++ sent')
      /\ 0 <= i'
      /\ length sent' = length intervals
      /\ forall (j : nat) interval,
           intervals !! j = Some interval ->
           exists p,
             peers !! Z.to_nat ((i + Z.of_nat j) mod Z.of_nat (length peers)) = Some p
             /\ sent' !! j = Some (request_to p interval).
Proof.
  intros Hpeers.
  assert (Hn : 0 < Z.of_nat (length peers)).
  { destruct peers; [contradiction|simpl; lia]. }
  induction intervals as [|interval rest IH]; intros i sent Hi; simpl.
  - exists i, []. rewrite app_nil_r. repeat split; auto.
    intros j x Hx. by rewrite lookup_nil in Hx.
  - rewrite Z.rem_mod_nonneg by lia.
    pose proof (Z.mod_pos_bound i (Z.of_nat (length peers)) Hn) as Hbound.
    destruct (Z.ltb_spec (i mod Z.of_nat (length peers)) 0) as [Hneg|_]; [lia|].
    destruct (lookup_lt_is_Some_2 peers (Z.to_nat (i mod Z.of_nat (length peers))))
      as [p Hp]; [lia|].
    rewrite Hp. simpl.
    destruct (IH (i mod Z.of_nat (length peers) + 1)
                (sent ++ [request_to p interval])) as (i' & sent' & Hloop & Hi' & Hlen & Hsent);
      [lia|].
    exists i', (request_to p interval :: sent').
    rewrite Hloop, <- app_assoc. simpl.
    repeat split; auto.
    intros [|j] x Hx; simpl in Hx.
    + injection Hx as <-. exists p. rewrite Z.add_0_r. by split.
    + destruct (Hsent j x Hx) as (q & Hq & Hj). exists q. split; [|exact Hj].
      rewrite <- Hq. f_equal. f_equal.
      replace (i + Z.of_nat (S j)) with (i + (1 + Z.of_nat j)) by lia.
      rewrite Z.add_assoc, <- (Zplus_mod_idemp_l (i + 1)), <- (Zplus_mod_idemp_l i).
      rewrite (Zplus_mod_idemp_l (i mod _ + 1)). reflexivity.
Qed.

(** The round-robin index of a worker never goes negative. *)
Lemma Sync_rrIdx_nonneg (env : handlers) (w w' : syncWorker) (sent : list unicast) :
  0 <= rrIdx w -> Sync env w = Some (w', sent) -> 0 <= rrIdx w'.
Proof.
  intros Hi. unfold Sync.
  destruct (decide (length (neighborsHandler env) = 0%nat)) as [H0|H0].
  - rewrite (bool_decide_eq_true_2 _ H0). intros [= <- _]. exact Hi.
  - rewrite (bool_decide_eq_false_2 _ H0).
    assert (Hne : neighborsHandler env <> []) by (by destruct (neighborsHandler env)).
    destruct (sync_loop_spec (neighborsHandler env)
                (GetBlocksIntervalsToSync env (targetHeight w)) Hne (rrIdx w) [] Hi)
      as (i' & sent' & -> & Hi' & _).
    simpl. intros [= <- _]. exact Hi'.
Qed.

Lemma newSyncWorker_rrIdx (chainID : N) : rrIdx (newSyncWorker chainID) = 0.
Proof. reflexivity. Qed.

Lemma SetTargetHeight_rrIdx (h : N) (w : syncWorker) :
  rrIdx (SetTargetHeight h w) = rrIdx w.
Proof. unfold SetTargetHeight. by destruct (targetHeight w <? h)%N. Qed.

(** C8.  A tick of the sync worker with a peer list [P] that is not empty
    and round-robin index [i] makes one unicast request per interval the
    buffer returns, in the order of the intervals, each carrying its
    interval's start and end, the [j]-th of them to peer
    [P[(i + j) mod |P|]]; with no peers the tick makes no request. *)
Theorem Sync_round_robin (env : handlers) (w : syncWorker) :
  0 <= rrIdx w ->
  let P := neighborsHandler env in
  let intervals := GetBlocksIntervalsToSync env (targetHeight w) in
  (P = [] -> Sync env w = Some (w, []))
  /\ (P <> [] ->
      exists w' sent,
        Sync env w = Some (w', sent)
        /\ length sent = length intervals
        /\ forall (j : nat) interval,
             intervals !! j = Some interval ->
             exists p,
               P !! Z.to_nat ((rrIdx w + Z.of_nat j) mod Z.of_nat (length P)) = Some p
               /\ sent !! j = Some (request_to p interval)).
Proof.
  intros Hi P intervals. split.
  - intros HP. unfold Sync. fold P. by rewrite HP.
  - intros HP. unfold Sync. fold P intervals.
    rewrite bool_decide_eq_false_2 by (by destruct P).
    destruct (sync_loop_spec P intervals HP (rrIdx w) [] Hi)
      as (i' & sent' & -> & _ & Hlen & Hsent).
    simpl. eexists _, _. split; [reflexivity|]. split; [exact Hlen|exact Hsent].
Qed.

(** The theorem at three intervals and three peers, from index 2: the
    requests go to the third, the first and the second peer. *)
Lemma Sync_round_robin_witness :
  let env := mkHandlers ["P1"; "P2"; "P3"]%string
               (fun _ => [mkInterval 11 12; mkInterval 15 16; mkInterval 18 20]%N) in
  let w := mkWorker 1%N 20%N 2 in
  exists w' sent,
    Sync env w = Some (w', sent)
    /\ length sent = 3%nat
    /\ forall (j : nat) interval,
         [mkInterval 11 12; mkInterval 15 16; mkInterval 18 20]%N !! j = Some interval ->
         exists p,
           ["P1"; "P2"; "P3"]%string !! Z.to_nat ((2 + Z.of_nat j) mod 3) = Some p
           /\ sent !! j = Some (request_to p interval).
Proof.
  intros env w.
  apply (proj2 (Sync_round_robin env w ltac:(simpl; lia))).
  discriminate.
Defined.

(** The same tick, computed. *)
Example Sync_three_intervals :
  Sync (mkHandlers ["P1"; "P2"; "P3"]%string
          (fun _ => [mkInterval 11 12; mkInterval 15 16; mkInterval 18 20]%N))
       (mkWorker 1%N 20%N 2)
  = Some (mkWorker 1%N 20%N 2,
          [mkUnicast "P3" (mkBlockSync 11 12);
           mkUnicast "P1" (mkBlockSync 15 16);
           mkUnicast "P2" (mkBlockSync 18 20)]).
Proof. reflexivity. Qed.

(** ** Runs of the worker *)

Lemma Sync_fields (env : handlers) (w w' : syncWorker) (sent : list unicast) :
  Sync env w = Some (w', sent) ->
  chainID w' = chainID w /\ targetHeight w' = targetHeight w.
Proof.
  unfold Sync.
  destruct (bool_decide (length (neighborsHandler env) = 0%nat)).
  - by intros [= <- _].
  - destruct (sync_loop _ _ _ _) as [[i' sent']|]; simpl; [|discriminate].
    by intros [= <- _].
Qed.

Lemma Sync_defined (env : handlers) (w : syncWorker) :
  0 <= rrIdx w -> exists w' sent, Sync env w = Some (w', sent).
Proof.
  intros Hi. unfold Sync.
  destruct (decide (length (neighborsHandler env) = 0%nat)) as [H0|H0].
  - rewrite (bool_decide_eq_true_2 _ H0). by eexists _, _.
  - rewrite (bool_decide_eq_false_2 _ H0).
    assert (Hne : neighborsHandler env <> []) by (by destruct (neighborsHandler env)).
    destruct (sync_loop_spec (neighborsHandler env)
                (GetBlocksIntervalsToSync env (targetHeight w)) Hne (rrIdx w) [] Hi)
      as (i' & sent' & -> & _).
    simpl. by eexists _, _.
Qed.

Lemma run_spec (es : list event) : forall (w : syncWorker),
  0 <= rrIdx w ->
  exists w',
    run es w = Some w'
    /\ 0 <= rrIdx w'
    /\ chainID w' = chainID w
    /\ targetHeight w' = foldr N.max (targetHeight w) (heights es).
Proof.
  induction es as [|e es IH]; intros w Hi; simpl.
  - by exists w.
  - destruct e as [h|env]; simpl.
    + destruct (IH (SetTargetHeight h w)) as (w' & Hrun & Hi' & Hc & Ht).
      { by rewrite SetTargetHeight_rrIdx. }
      exists w'. split; [exact Hrun|]. split; [exact Hi'|].
      unfold SetTargetHeight in *.
      rewrite foldr_app. simpl.
      destruct (N.ltb_spec (targetHeight w) h); simpl in *.
      * split; [exact Hc|]. rewrite Ht. f_equal. lia.
      * split; [exact Hc|]. rewrite Ht. f_equal. lia.
    + destruct (Sync_defined env w Hi) as (w1 & sent & Hsync).
      rewrite Hsync. simpl.
      pose proof (Sync_rrIdx_nonneg env w w1 sent Hi Hsync) as Hi1.
      destruct (Sync_fields env w w1 sent Hsync) as [Hc1 Ht1].
      destruct (IH w1 Hi1) as (w' & Hrun & Hi' & Hc & Ht).
      exists w'. rewrite Hc, Ht, Hc1, Ht1. auto.
Qed.

(** X15.  A worker never reads its peer list out of range: whatever target
    heights are set and whatever peers and intervals its ticks meet, every
    tick of a worker made by [newSyncWorker] ends, and the round-robin index
    stays at zero or above. *)
Theorem worker_never_panics (c : N) (es : list event) :
  exists w, run es (newSyncWorker c) = Some w /\ 0 <= rrIdx w /\ chainID w = c.
Proof.
  destruct (run_spec es (newSyncWorker c)) as (w & Hrun & Hi & Hc & _).
  { simpl. lia. }
  by exists w.
Qed.

(** X16.  The target height of a worker only rises: after any run it is the
    highest of the heights that were set since the worker was made (zero when
    none was), and ticks leave it alone. *)
Theorem targetHeight_is_highest (c : N) (es : list event) :
  exists w,
    run es (newSyncWorker c) = Some w
    /\ targetHeight w = foldr N.max 0%N (heights es).
Proof.
  destruct (run_spec es (newSyncWorker c)) as (w & Hrun & _ & _ & Ht).
  { simpl. lia. }
  by exists w.
Qed.

(** ** Ticks one after the other *)

Lemma sync_loop_sent (peers : list peer) (intervals : list syncBlocksInterval) :
  forall (i : Z) (sent : list unicast),
    sync_loop peers intervals i sent
    = (fun r => (fst r, sent ++ snd r)) <$> sync_loop peers intervals i [].
Proof.
  induction intervals as [|interval rest IH]; intros i sent; simpl.
  - by rewrite app_nil_r.
  - destruct (if Z.rem i (Z.of_nat (length peers)) <? 0 then None
              else peers !! Z.to_nat (Z.rem i (Z.of_nat (length peers)))) as [p|];
      simpl; [|reflexivity].
    rewrite (IH _ (sent ++ _)), (IH _ [_]).
    destruct (sync_loop peers rest _ []) as [[i' sent']|]; simpl; [|reflexivity].
    by rewrite <- app_assoc.
Qed.

Lemma sync_loop_app (peers : list peer) (l1 l2 : list syncBlocksInterval) :
  forall (i : Z) (sent : list unicast),
    sync_loop peers (l1 ++ l2) i sent
    = sync_loop peers l1 i sent ≫= fun r => sync_loop peers l2 (fst r) (snd r).
Proof.
  induction l1 as [|interval rest IH]; intros i sent; simpl; [reflexivity|].
  destruct (if Z.rem i (Z.of_nat (length peers)) <? 0 then None
            else peers !! Z.to_nat (Z.rem i (Z.of_nat (length peers)))) as [p|];
    simpl; [|reflexivity].
  apply IH.
Qed.

(** X17.  Two ticks in a row with the same peers continue one round robin:
    together they send what a single tick would send for the intervals of the
    first followed by those of the second, and leave the worker as that
    single tick would. *)
Theorem Sync_ticks_compose (P : list peer)
    (f1 f2 : N -> list syncBlocksInterval)
    (w w1 w2 : syncWorker) (sent1 sent2 : list unicast) :
  Sync (mkHandlers P f1) w = Some (w1, sent1) ->
  Sync (mkHandlers P f2) w1 = Some (w2, sent2) ->
  Sync (mkHandlers P (fun h => f1 h ++ f2 h)) w = Some (w2, sent1 ++ sent2).
Proof.
  unfold Sync; simpl.
  destruct (bool_decide (length P = 0%nat)).
  { by intros [= <- <-] [= <- <-]. }
  destruct (sync_loop P (f1 (targetHeight w)) (rrIdx w) []) as [[i1 s1]|] eqn:H1;
    simpl; [|discriminate].
  intros [= <- <-]. simpl.
  destruct (sync_loop P (f2 (targetHeight w)) i1 []) as [[i2 s2]|] eqn:H2;
    simpl; [|discriminate].
  intros [= <- <-].
  rewrite sync_loop_app, H1. simpl.
  by rewrite sync_loop_sent, H2.
Qed.

(** The theorem at two ticks of one interval each, with three peers. *)
Lemma Sync_ticks_compose_witness :
  let P := ["P1"; "P2"; "P3"]%string in
  let f1 := fun _ : N => [mkInterval 11 12] in
  let f2 := fun _ : N => [mkInterval 15 16] in
  Sync (mkHandlers P (fun h => f1 h ++ f2 h)) (mkWorker 1 20 0)
  = Some (mkWorker 1 20 2,
          [mkUnicast "P1" (mkBlockSync 11 12)] ++ [mkUnicast "P2" (mkBlockSync 15 16)]).
Proof.
  intros P f1 f2.
  exact (Sync_ticks_compose P f1 f2 (mkWorker 1 20 0) (mkWorker 1 20 1) (mkWorker 1 20 2)
           _ _ eq_refl eq_refl).
Defined.

End BlockSyncFacts.

(** * Properties of the dispatcher *)

Module DispatcherFacts.
Import Dispatcher.

#[local] Ltac unfold_dispatcher :=
  unfold HandleBroadcast, HandleTell, dispatchAction, dispatchBlockCommit,
    dispatchBlockSyncReq, dispatchBlockSyncData, enqueueEvent,
    goroutine_check, goroutine_send, newsHandler_receive, newsHandler_quit,
    handle_event, handleActionMsg, handleBlockMsg, handleBlockSyncMsg,
    updateEventAudit, invoke, Start_, Stop, AddSubscriber, GetTypeFromProtoMsg,
    log, set_started, set_shutdown, set_eventChan, set_eventAudit, set_quit,
    set_running, set_subscribers, set_goroutines, set_calls, set_requestMtc in *.

(** Decide every test left in the goal and conclude. *)
#[local] Ltac by_cases :=
  repeat (simpl in *; try done;
          match goal with
          | H : Some _ = Some _ |- _ => injection H as <-
          | H : None = Some _ |- _ => discriminate H
          | H : context [match ?x with _ => _ end] |- _ => destruct x eqn:?
          | |- context [match ?x with _ => _ end] => destruct x eqn:?
          end).

Section WithSubscribers.
Variable returnsError : list call -> call -> bool.

#[local] Abbreviation handle_event := (handle_event returnsError).
#[local] Abbreviation newsHandler_receive := (newsHandler_receive returnsError).
#[local] Abbreviation HandleBroadcast := (HandleBroadcast returnsError).
#[local] Abbreviation step := (step returnsError).
#[local] Abbreviation reachable := (reachable returnsError).

(** ** The channel and its capacity *)

Lemma handle_event_chan ev d :
  eventChan (handle_event ev d) = eventChan d
  /\ eventChanCap (handle_event ev d) = eventChanCap d.
Proof. destruct ev; unfold_dispatcher; by_cases. Qed.

Lemma HandleBroadcast_chan chainID message d d' :
  HandleBroadcast chainID message d = Some d' ->
  eventChan d' = eventChan d /\ eventChanCap d' = eventChanCap d.
Proof. intros H. destruct message; unfold_dispatcher; by_cases. Qed.

Lemma HandleTell_chan chainID sender message d d' :
  HandleTell chainID sender message d = Some d' ->
  eventChan d' = eventChan d /\ eventChanCap d' = eventChanCap d.
Proof. intros H. destruct message; unfold_dispatcher; by_cases. Qed.

(** Whatever the threads do, the channel keeps its capacity and never holds
    more than it. *)
Lemma step_bound d d' :
  step d d' ->
  (length (eventChan d) <= eventChanCap d)%nat ->
  eventChanCap d' = eventChanCap d
  /\ (length (eventChan d') <= eventChanCap d')%nat.
Proof.
  intros Hstep Hle. destruct Hstep as
    [chainID sub d|d|d|chainID message d d' H|chainID sender message d d' H
    |i d d' H|i d d' H|d d' H|d d' H].
  - unfold_dispatcher; by_cases.
  - unfold_dispatcher; by_cases.
  - unfold_dispatcher; by_cases.
  - apply HandleBroadcast_chan in H as [-> ->]. auto.
  - apply HandleTell_chan in H as [-> ->]. auto.
  - unfold goroutine_check in H. by_cases.
  - unfold goroutine_send in H.
    destruct (goroutines d !! i) as [[ev|ev]|]; try discriminate.
    destruct (decide (length (eventChan d) < eventChanCap d)%nat) as [Hlt|Hge].
    + rewrite (bool_decide_eq_true_2 _ Hlt) in H. injection H as <-.
      simpl. rewrite length_app. simpl. split; [reflexivity|lia].
    + rewrite (bool_decide_eq_false_2 _ Hge) in H. discriminate.
  - unfold Dispatcher.newsHandler_receive in H.
    destruct (running d); [|discriminate].
    destruct (eventChan d) as [|m rest] eqn:Hchan; [discriminate|].
    injection H as <-.
    destruct (handle_event_chan m (set_eventChan rest d)) as [-> ->].
    simpl in *. split; [reflexivity|lia].
  - unfold newsHandler_quit in H. by_cases.
Qed.

Lemma reachable_bound EventChanSize d :
  reachable EventChanSize d ->
  eventChanCap d = EventChanSize
  /\ (length (eventChan d) <= EventChanSize)%nat.
Proof.
  induction 1 as [|d d' _ [IHcap IHlen] Hstep].
  - simpl. split; [reflexivity|lia].
  - destruct (step_bound d d' Hstep) as [Hcap Hlen]; [lia|].
    split; [congruence|]. rewrite <- IHcap, <- Hcap. exact Hlen.
Qed.

(** ** Enqueueing *)

Lemma goroutine_check_full ev d :
  length (eventChan d) = eventChanCap d ->
  goroutine_check (length (goroutines d)) (enqueueEvent ev d)
  = Some (log WarnEventChanFull d).
Proof.
  intros Hfull. unfold goroutine_check, enqueueEvent; simpl.
  rewrite lookup_app_r, Nat.sub_diag by lia. simpl.
  rewrite (bool_decide_eq_true_2 _ Hfull).
  rewrite delete_middle, app_nil_r. by destruct d.
Qed.

Lemma goroutine_check_room ev d :
  (length (eventChan d) < eventChanCap d)%nat ->
  goroutine_check (length (goroutines d)) (enqueueEvent ev d)
  = Some (set_goroutines (goroutines d ++ [AtSend ev]) d).
Proof.
  intros Hroom. unfold goroutine_check, enqueueEvent; simpl.
  rewrite lookup_app_r, Nat.sub_diag by lia. simpl.
  rewrite bool_decide_eq_false_2 by lia.
  unfold set_goroutines; simpl. do 2 f_equal.
  by rewrite insert_app_r_alt, Nat.sub_diag by lia.
Qed.

Lemma goroutine_send_room ev d :
  (length (eventChan d) < eventChanCap d)%nat ->
  goroutine_send (length (goroutines d))
    (set_goroutines (goroutines d ++ [AtSend ev]) d)
  = Some (set_eventChan (eventChan d ++ [ev]) d).
Proof.
  intros Hroom. unfold goroutine_send; simpl.
  rewrite lookup_app_r, Nat.sub_diag by lia. simpl.
  rewrite (bool_decide_eq_true_2 _ Hroom).
  unfold set_eventChan, set_goroutines; simpl. do 2 f_equal.
  by rewrite delete_middle, app_nil_r.
Qed.

Lemma goroutine_send_full i d :
  length (eventChan d) = eventChanCap d -> goroutine_send i d = None.
Proof.
  intros Hfull. unfold goroutine_send.
  destruct (goroutines d !! i) as [[ev|ev]|]; try reflexivity.
  by rewrite bool_decide_eq_false_2 by lia.
Qed.

(** What holds of the queue: it never holds more events than the configured
    [EventChanSize], whatever the threads do; and a goroutine of
    [enqueueEvent] that makes its test and its send with no step of another
    thread in between drops the event, logging a warning and nothing else,
    when it finds the queue at capacity, and otherwise appends the event. *)
Lemma enqueue_uninterrupted (EventChanSize : nat) :
  (forall d, reachable EventChanSize d ->
     (length (eventChan d) <= EventChanSize)%nat)
  /\ (forall ev d,
      length (eventChan d) = eventChanCap d ->
      goroutine_check (length (goroutines d)) (enqueueEvent ev d)
      = Some (log WarnEventChanFull d))
  /\ (forall ev d,
      (length (eventChan d) < eventChanCap d)%nat ->
      (goroutine_check (length (goroutines d)) (enqueueEvent ev d)
       ≫= goroutine_send (length (goroutines d)))
      = Some (set_eventChan (eventChan d ++ [ev]) d)).
Proof.
  split; [|split].
  - intros d Hd. by apply reachable_bound in Hd as [_ ?].
  - intros ev d Hfull. by apply goroutine_check_full.
  - intros ev d Hroom.
    rewrite goroutine_check_room by done. simpl.
    by apply goroutine_send_room.
Qed.

(** C4, at the input where it fails.  A dispatcher with room for one event
    and a subscriber for chain 7 gets two action broadcasts for that chain,
    and both goroutines of [enqueueEvent] make their length test before
    either sends: both find the queue empty.  The first send fills the
    queue.  The second event was enqueued while the queue was not at
    capacity, yet it is not in the queue; it was not dropped either, as no
    warning is logged; its goroutine stands at the channel send and cannot
    move, and with no event loop running nothing else moves it. *)
Theorem enqueue_race_leaves_event_waiting :
  let ev1 := EvAction (mkActionMsg 7 [x01]%byte) in
  let ev2 := EvAction (mkActionMsg 7 [x02]%byte) in
  let d0 := AddSubscriber 7 0%nat (NewDispatcher 1) in
  length (eventChan d0) = 0%nat
  /\ eventChanCap d0 = 1%nat
  /\ exists d,
      ((((HandleBroadcast 7 (MAction [x01]%byte) d0
          ≫= HandleBroadcast 7 (MAction [x02]%byte))
         ≫= goroutine_check 0) ≫= goroutine_check 1) ≫= goroutine_send 0) = Some d
      /\ reachable 1 d
      /\ eventChan d = [ev1]
      /\ goroutines d = [AtSend ev2]
      /\ logs d = []
      /\ (forall i, goroutine_check i d = None /\ goroutine_send i d = None)
      /\ newsHandler_receive d = None
      /\ newsHandler_quit d = None.
Proof.
  intros ev1 ev2 d0.
  split; [reflexivity|]. split; [reflexivity|].
  exists (set_eventChan [ev1] (set_goroutines [AtSend ev2] d0)).
  split; [reflexivity|]. split.
  - assert (H0 : reachable 1 d0).
    { apply (reachable_step _ 1 (NewDispatcher 1)); [apply reachable_new|].
      apply step_AddSubscriber. }
    assert (H1 : reachable 1 (enqueueEvent ev1 d0)).
    { apply (reachable_step _ 1 d0); [exact H0|].
      by apply (step_HandleBroadcast _ 7 (MAction [x01]%byte)). }
    assert (H2 : reachable 1 (enqueueEvent ev2 (enqueueEvent ev1 d0))).
    { apply (reachable_step _ 1 (enqueueEvent ev1 d0)); [exact H1|].
      by apply (step_HandleBroadcast _ 7 (MAction [x02]%byte)). }
    assert (H3 : reachable 1 (set_goroutines [AtSend ev1; AtCheck ev2] d0)).
    { apply (reachable_step _ 1 (enqueueEvent ev2 (enqueueEvent ev1 d0))); [exact H2|].
      by apply (step_check _ 0). }
    assert (H4 : reachable 1 (set_goroutines [AtSend ev1; AtSend ev2] d0)).
    { apply (reachable_step _ 1 (set_goroutines [AtSend ev1; AtCheck ev2] d0)); [exact H3|].
      by apply (step_check _ 1). }
    apply (reachable_step _ 1 (set_goroutines [AtSend ev1; AtSend ev2] d0)); [exact H4|].
    by apply (step_send _ 0).
  - split; [reflexivity|]. split; [reflexivity|]. split; [reflexivity|].
    split; [|split; reflexivity].
    intros i. split.
    + by destruct i as [|[|i]].
    + by apply goroutine_send_full.
Qed.

(** ** Broadcasts *)

(** C5, as amended.  With a subscriber registered for the chain,
    [HandleBroadcast] answers a consensus message by one call of the
    subscriber's [HandleConsensusMsg], made before it returns, and enqueues
    nothing; an action or block message causes no subscriber call and, unless
    the shutdown flag is set, is handed to [enqueueEvent] as an action event
    or a new-block event; with the shutdown flag set it is discarded. *)
Theorem HandleBroadcast_routes (chainID : N) (sub : Subscriber) (d : IotxDispatcher) :
  subscribers d !! chainID = Some sub ->
  (forall message,
     fst (GetTypeFromProtoMsg message) = MsgConsensusType ->
     exists c d',
       message = MConsensus c
       /\ HandleBroadcast chainID message d = Some d'
       /\ calls d' = calls d ++ [HandleConsensusMsg sub c]
       /\ goroutines d' = goroutines d
       /\ eventChan d' = eventChan d)
  /\ (forall message,
      fst (GetTypeFromProtoMsg message) = MsgActionType ->
      exists a,
        message = MAction a
        /\ HandleBroadcast chainID message d
           = Some (if bool_decide (shutdown d = 0)
                   then enqueueEvent (EvAction (mkActionMsg chainID a)) d
                   else d))
  /\ (forall message,
      fst (GetTypeFromProtoMsg message) = MsgBlockProtoMsgType ->
      exists b,
        message = MBlock b
        /\ HandleBroadcast chainID message d
           = Some (if bool_decide (shutdown d = 0)
                   then enqueueEvent (EvBlock (mkBlockMsg chainID b MsgBlockProtoMsgType)) d
                   else d))
  /\ (forall ev, calls (enqueueEvent ev d) = calls d).
Proof.
  intros Hsub. repeat split.
  - intros [a|b|s|b|c|body] Hty; try discriminate.
    unfold Dispatcher.HandleBroadcast; simpl. rewrite Hsub.
    eexists c, _. split; [reflexivity|]. split; [reflexivity|].
    by destruct (returnsError (calls d) (HandleConsensusMsg sub c)).
  - intros [a|b|s|b|c|body] Hty; try discriminate.
    exists a. split; [reflexivity|].
    unfold Dispatcher.HandleBroadcast, dispatchAction; simpl. rewrite Hsub.
    destruct (decide (shutdown d = 0)) as [H0|H0].
    + by rewrite (bool_decide_eq_true_2 _ H0), bool_decide_eq_false_2 by auto.
    + by rewrite (bool_decide_eq_false_2 _ H0), bool_decide_eq_true_2 by auto.
  - intros [a|b|s|b|c|body] Hty; try discriminate.
    exists b. split; [reflexivity|].
    unfold Dispatcher.HandleBroadcast, dispatchBlockCommit; simpl. rewrite Hsub.
    destruct (decide (shutdown d = 0)) as [H0|H0].
    + by rewrite (bool_decide_eq_true_2 _ H0), bool_decide_eq_false_2 by auto.
    + by rewrite (bool_decide_eq_false_2 _ H0), bool_decide_eq_true_2 by auto.
Qed.

(** ** The audit counters *)

(** No counter moves when an event is enqueued, dropped or sent. *)
Lemma enqueue_keeps_audit :
  (forall ev d, eventAudit (enqueueEvent ev d) = eventAudit d)
  /\ (forall i d d', goroutine_check i d = Some d' -> eventAudit d' = eventAudit d)
  /\ (forall i d d', goroutine_send i d = Some d' -> eventAudit d' = eventAudit d)
  /\ (forall chainID message d d',
        HandleBroadcast chainID message d = Some d' -> eventAudit d' = eventAudit d)
  /\ (forall chainID sender message d d',
        HandleTell chainID sender message d = Some d' -> eventAudit d' = eventAudit d).
Proof.
  repeat split.
  - intros i d d' H. unfold goroutine_check in H. by_cases.
  - intros i d d' H. unfold goroutine_send in H. by_cases.
  - intros chainID message d d' H. destruct message; unfold_dispatcher; by_cases.
  - intros chainID sender message d d' H. destruct message; unfold_dispatcher; by_cases.
Qed.

(** What the event loop does to the counters when it takes an event: an
    action event and a sync request count whether or not their chain has a
    subscriber; a block event counts only when its chain has one. *)
Lemma receive_audit d d' m rest :
  eventChan d = m :: rest ->
  newsHandler_receive d = Some d' ->
  eventAudit d' =
  match m with
  | EvAction _ => bump MsgActionType (eventAudit d)
  | EvBlockSync _ => bump MsgBlockSyncReqType (eventAudit d)
  | EvBlock msg =>
      match subscribers d !! b_chainID msg with
      | Some _ =>
          if bool_decide (blkType msg = MsgBlockProtoMsgType)
          then bump MsgBlockProtoMsgType (eventAudit d)
          else if bool_decide (blkType msg = MsgBlockSyncDataType)
          then bump MsgBlockSyncDataType (eventAudit d)
          else eventAudit d
      | None => eventAudit d
      end
  | EvOther => eventAudit d
  end.
Proof.
  intros Hchan H. unfold Dispatcher.newsHandler_receive in H. rewrite Hchan in H.
  destruct (running d); [|discriminate]. injection H as <-.
  destruct m as [msg|msg|msg|]; unfold_dispatcher; unfold bump; by_cases.
Qed.

End WithSubscribers.

(** The happy path of the specification: with a subscriber for chain 7, an
    action broadcast goes through the queue and ends in one call of
    [HandleAction], counted once. *)
Example action_broadcast_scenario :
  let d0 := fst (Start_ (AddSubscriber 7 0%nat (NewDispatcher 2))) in
  exists d,
    (((HandleBroadcast (fun _ _ => false) 7 (MAction [x01]%byte) d0
       ≫= goroutine_check 0) ≫= goroutine_send 0)
     ≫= newsHandler_receive (fun _ _ => false)) = Some d
    /\ calls d = [HandleAction 0%nat [x01]%byte]
    /\ eventChan d = []
    /\ EventAudit d !! MsgActionType = Some 1.
Proof. eexists. vm_compute. repeat split. Qed.

(** The queue overflow scenario of the specification: with room for two
    events and no consumer, three enqueues, each goroutine running to its end
    before the next enqueue, leave two events in the queue and one warning in
    the log. *)
Example overflow_scenario :
  let ev n := EvAction (mkActionMsg 7 [n]) in
  let enqueue e d := goroutine_check 0 (enqueueEvent e d) in
  exists d,
    ((((enqueue (ev x01%byte) (NewDispatcher 2) ≫= goroutine_send 0)
       ≫= enqueue (ev x02%byte)) ≫= goroutine_send 0)
     ≫= enqueue (ev x03%byte)) = Some d
    /\ eventChan d = [ev x01%byte; ev x02%byte]
    /\ goroutines d = []
    /\ logs d = [WarnEventChanFull].
Proof. eexists. vm_compute. repeat split. Qed.

(** C5, where it fails as first stated: a dispatcher with a subscriber for
    chain 7 that has been stopped gets an action broadcast for chain 7 and
    enqueues nothing. *)
Lemma HandleBroadcast_after_Stop :
  let d := Stop (AddSubscriber 7 0%nat (NewDispatcher 2)) in
  subscribers d !! 7%N = Some 0%nat
  /\ fst (GetTypeFromProtoMsg (MAction [x01]%byte)) = MsgActionType
  /\ HandleBroadcast (fun _ _ => false) 7 (MAction [x01]%byte) d = Some d
  /\ goroutines d = []
  /\ eventChan d = [].
Proof. vm_compute. repeat split. Qed.

(** The amended statement at a dispatcher with one subscriber: a consensus
    message is handled at once, an action message is handed to
    [enqueueEvent]. *)
Lemma HandleBroadcast_routes_witness :
  let d := AddSubscriber 7 0%nat (NewDispatcher 2) in
  (exists c d',
     MConsensus [x01]%byte = MConsensus c
     /\ HandleBroadcast (fun _ _ => false) 7 (MConsensus [x01]%byte) d = Some d'
     /\ calls d' = calls d ++ [HandleConsensusMsg 0%nat c]
     /\ goroutines d' = goroutines d
     /\ eventChan d' = eventChan d)
  /\ (exists a,
       MAction [x02]%byte = MAction a
       /\ HandleBroadcast (fun _ _ => false) 7 (MAction [x02]%byte) d
          = Some (if bool_decide (shutdown d = 0)
                  then enqueueEvent (EvAction (mkActionMsg 7 a)) d
                  else d)).
Proof.
  intros d.
  pose proof (HandleBroadcast_routes (fun _ _ => false) 7 0%nat d eq_refl)
    as (Hconsensus & Haction & _).
  split.
  - apply Hconsensus. reflexivity.
  - apply Haction. reflexivity.
Defined.

(** C9, at the input where it fails.  A started dispatcher with no
    subscriber at all is told a sync request for chain 9; the request is
    enqueued and taken by the event loop, which counts it although no
    subscriber was called. *)
Theorem audit_counts_undelivered_sync_request :
  let d0 := fst (Start_ (NewDispatcher 1)) in
  exists d,
    (((HandleTell 9 "peer" (MBlockSync (mkBlockSync 1 2)) d0
       ≫= goroutine_check 0) ≫= goroutine_send 0)
     ≫= newsHandler_receive (fun _ _ => false)) = Some d
    /\ subscribers d = ∅
    /\ calls d = []
    /\ EventAudit d !! MsgBlockSyncReqType = Some 1.
Proof. eexists. vm_compute. repeat split. Qed.

(** ** Unicast messages *)

(** X18.  [HandleTell] looks up no subscriber and calls none.  While the
    shutdown flag is clear, a sync request is handed to [enqueueEvent] as a
    sync event that carries the chain and the sender, and block sync data as
    a block event marked [MsgBlockSyncDataType]; a message of any other type
    is only logged. *)
Theorem HandleTell_routes (chainID : N) (sender : string) (d : IotxDispatcher) :
  shutdown d = 0 ->
  (forall message,
     fst (GetTypeFromProtoMsg message) = MsgBlockSyncReqType ->
     exists s,
       message = MBlockSync s
       /\ HandleTell chainID sender message d
          = Some (enqueueEvent (EvBlockSync (mkBlockSyncMsg chainID sender s)) d))
  /\ (forall message,
      fst (GetTypeFromProtoMsg message) = MsgBlockSyncDataType ->
      exists b,
        message = MBlockContainer b
        /\ HandleTell chainID sender message d
           = Some (enqueueEvent (EvBlock (mkBlockMsg chainID b MsgBlockSyncDataType)) d))
  /\ (forall message,
      fst (GetTypeFromProtoMsg message) <> MsgBlockSyncReqType ->
      fst (GetTypeFromProtoMsg message) <> MsgBlockSyncDataType ->
      exists d',
        HandleTell chainID sender message d = Some d'
        /\ list.last (logs d') = Some (WarnUnexpectedMsgType (fst (GetTypeFromProtoMsg message)))
        /\ goroutines d' = goroutines d
        /\ eventChan d' = eventChan d
        /\ calls d' = calls d).
Proof.
  intros H0. split; [|split].
  - intros [a|b|s|b|c|body] Hty; try discriminate.
    exists s. split; [reflexivity|].
    unfold HandleTell, dispatchBlockSyncReq; simpl.
    by rewrite bool_decide_eq_false_2 by auto.
  - intros [a|b|s|b|c|body] Hty; try discriminate.
    exists b. split; [reflexivity|].
    unfold HandleTell, dispatchBlockSyncData; simpl.
    by rewrite bool_decide_eq_false_2 by auto.
  - intros [a|b|s|b|c|body] Hreq Hdata; try done;
      (eexists; split; [reflexivity|]; simpl; by rewrite last_snoc).
Qed.

(** The theorem at a fresh dispatcher, which has no subscriber at all. *)
Lemma HandleTell_routes_witness :
  let d := NewDispatcher 2 in
  exists s,
    MBlockSync (mkBlockSync 1 2) = MBlockSync s
    /\ HandleTell 9 "peer" (MBlockSync (mkBlockSync 1 2)) d
       = Some (enqueueEvent (EvBlockSync (mkBlockSyncMsg 9 "peer" s)) d).
Proof.
  intros d.
  pose proof (HandleTell_routes 9 "peer" d eq_refl) as (Hreq & _).
  apply Hreq. reflexivity.
Defined.

Section MoreWithSubscribers.
Variable returnsError : list call -> call -> bool.

#[local] Abbreviation handle_event := (handle_event returnsError).
#[local] Abbreviation newsHandler_receive := (newsHandler_receive returnsError).
#[local] Abbreviation newsHandler_turns := (newsHandler_turns returnsError).
#[local] Abbreviation HandleBroadcast := (HandleBroadcast returnsError).
#[local] Abbreviation step := (step returnsError).
#[local] Abbreviation reachable := (reachable returnsError).

(** ** After the shutdown flag is set *)

(** X19.  Once the shutdown flag is set, nothing is enqueued any more:
    [HandleBroadcast] and [HandleTell] return without starting a goroutine
    and without touching the channel, whatever the message, and [HandleTell]
    calls no subscriber. *)
Theorem stopped_dispatcher_enqueues_nothing
    (chainID : N) (sender : string) (message : Message) (d : IotxDispatcher) :
  shutdown d <> 0 ->
  (exists d',
     HandleBroadcast chainID message d = Some d'
     /\ goroutines d' = goroutines d
     /\ eventChan d' = eventChan d)
  /\ (exists d',
      HandleTell chainID sender message d = Some d'
      /\ goroutines d' = goroutines d
      /\ eventChan d' = eventChan d
      /\ calls d' = calls d).
Proof.
  intros Hdown. split.
  - unfold Dispatcher.HandleBroadcast, dispatchAction, dispatchBlockCommit.
    destruct message; simpl;
      destruct (subscribers d !! chainID); simpl;
      rewrite ?(bool_decide_eq_true_2 _ Hdown);
      try (by eexists);
      destruct (returnsError _ _); by eexists.
  - unfold HandleTell, dispatchBlockSyncReq, dispatchBlockSyncData.
    destruct message; simpl;
      rewrite ?(bool_decide_eq_true_2 _ Hdown); by eexists.
Qed.

(** X20.  [Stop] does not wait for the channel to drain: on a running
    dispatcher the event loop can leave through its quit case at once, and
    then the events still in the channel stay there, no subscriber is called
    for them and the loop takes no further turn. *)
Theorem Stop_leaves_queue_undelivered (d : IotxDispatcher) :
  shutdown d = 0 ->
  running d = true ->
  exists d',
    newsHandler_quit (Stop d) = Some d'
    /\ eventChan d' = eventChan d
    /\ calls d' = calls d
    /\ newsHandler_receive d' = None
    /\ newsHandler_quit d' = None.
Proof.
  intros H0 Hrun. unfold Stop, newsHandler_quit, Dispatcher.newsHandler_receive; simpl.
  rewrite H0. simpl. rewrite Hrun. simpl. by eexists.
Qed.

(** ** What handling an event does *)

Lemma handle_event_frame ev d :
  subscribers (handle_event ev d) = subscribers d
  /\ running (handle_event ev d) = running d
  /\ goroutines (handle_event ev d) = goroutines d
  /\ calls (handle_event ev d)
     = match call_of (subscribers d) ev with
       | Some c => calls d ++ [c]
       | None => calls d
       end.
Proof. destruct ev; unfold_dispatcher; unfold call_of; by_cases. Qed.

Lemma handle_event_audit ev d :
  eventAudit (handle_event ev d) =
  match ev with
  | EvAction _ => bump MsgActionType (eventAudit d)
  | EvBlockSync _ => bump MsgBlockSyncReqType (eventAudit d)
  | EvBlock msg =>
      match subscribers d !! b_chainID msg with
      | Some _ =>
          if bool_decide (blkType msg = MsgBlockProtoMsgType)
          then bump MsgBlockProtoMsgType (eventAudit d)
          else if bool_decide (blkType msg = MsgBlockSyncDataType)
          then bump MsgBlockSyncDataType (eventAudit d)
          else eventAudit d
      | None => eventAudit d
      end
  | EvOther => eventAudit d
  end.
Proof. destruct ev; unfold_dispatcher; unfold bump; by_cases. Qed.

(** ** The order of delivery *)

Lemma turns_deliver (l : list event) : forall d,
  running d = true ->
  eventChan d = l ->
  exists d',
    newsHandler_turns (length l) d = Some d'
    /\ eventChan d' = []
    /\ subscribers d' = subscribers d
    /\ calls d' = calls d ++ omap (call_of (subscribers d)) l.
Proof.
  induction l as [|ev l IH]; intros d Hrun Hchan; simpl.
  - exists d. by rewrite app_nil_r.
  - unfold Dispatcher.newsHandler_receive at 1. rewrite Hrun, Hchan. simpl.
    destruct (handle_event_frame ev (set_eventChan l d)) as (Hs & Hr & _ & Hc).
    destruct (handle_event_chan returnsError ev (set_eventChan l d)) as [Hch _].
    destruct (IH (handle_event ev (set_eventChan l d))) as (d' & Ht & He & Hsubs & Hcalls).
    { by rewrite Hr. }
    { by rewrite Hch. }
    exists d'. split; [exact Ht|]. split; [exact He|].
    rewrite Hcalls, Hc, Hsubs, Hs. simpl. split; [reflexivity|].
    destruct (call_of (subscribers d) ev); [|reflexivity].
    by rewrite <- app_assoc.
Qed.

(** X21.  The event loop delivers in the order of the channel: left alone
    with the events queued, it empties the channel in as many turns as there
    are events, and the subscriber calls it adds are those of the events,
    oldest first, at most one for each; an event whose chain has no
    subscriber gives none. *)
Theorem events_delivered_in_order (d : IotxDispatcher) :
  running d = true ->
  exists d',
    newsHandler_turns (length (eventChan d)) d = Some d'
    /\ eventChan d' = []
    /\ calls d' = calls d ++ omap (call_of (subscribers d)) (eventChan d).
Proof.
  intros Hrun.
  destruct (turns_deliver (eventChan d) d Hrun eq_refl) as (d' & Ht & He & _ & Hc).
  by exists d'.
Qed.

(** ** What a step can do *)

(** What a step other than a turn of the event loop leaves alone. *)
Lemma step_cases d d' :
  step d d' ->
  (eventAudit d' = eventAudit d
   /\ (calls d' = calls d \/ exists sub c, calls d' = calls d ++ [HandleConsensusMsg sub c]))
  \/ (exists ev rest,
        eventChan d = ev :: rest /\ d' = handle_event ev (set_eventChan rest d)).
Proof.
  intros Hstep. destruct Hstep as
    [chainID sub d|d|d|chainID message d d' H|chainID sender message d d' H
    |i d d' H|i d d' H|d d' H|d d' H].
  - left. auto.
  - left. unfold Start_. by_cases; auto.
  - left. unfold Stop. by_cases; auto.
  - left. split.
    { by apply (enqueue_keeps_audit returnsError) in H. }
    unfold Dispatcher.HandleBroadcast, dispatchAction, dispatchBlockCommit, invoke in H.
    destruct message; simpl in H;
      destruct (subscribers d !! chainID); simpl in H;
      try destruct (bool_decide (shutdown d <> 0));
      try destruct (returnsError _ _);
      injection H as <-; simpl; eauto.
  - left. split.
    { by apply (enqueue_keeps_audit returnsError) in H. }
    left. unfold HandleTell, dispatchBlockSyncReq, dispatchBlockSyncData in H.
    destruct message; simpl in H;
      try destruct (bool_decide (shutdown d <> 0));
      by injection H as <-.
  - left. unfold goroutine_check in H. by_cases; auto.
  - left. unfold goroutine_send in H. by_cases; auto.
  - right. unfold Dispatcher.newsHandler_receive in H.
    destruct (running d); [|discriminate].
    destruct (eventChan d) as [|m rest]; [discriminate|].
    injection H as <-. by exists m, rest.
  - left. unfold newsHandler_quit in H. by_cases; auto.
Qed.

(** ** The block counters *)

Lemma wrap_int_succ (z : Z) : wrap_int (wrap_int z + 1) = wrap_int (z + 1).
Proof.
  unfold wrap_int.
  replace ((z + 2 ^ 63) mod 2 ^ 64 - 2 ^ 63 + 1 + 2 ^ 63)
    with ((z + 2 ^ 63) mod 2 ^ 64 + 1) by ring.
  rewrite Zplus_mod_idemp_l. do 2 f_equal. ring.
Qed.

Lemma bump_same t (a : gmap MsgType Z) :
  default 0 (bump t a !! t) = wrap_int (default 0 (a !! t) + 1).
Proof. unfold bump. by rewrite lookup_insert_eq. Qed.

Lemma bump_other t t' (a : gmap MsgType Z) :
  t <> t' -> bump t a !! t' = a !! t'.
Proof. intros Hne. unfold bump. by rewrite lookup_insert_ne. Qed.

Lemma count_snoc kind cs c :
  count kind (cs ++ [c]) = count kind cs + (if kind c then 1 else 0).
Proof.
  unfold count. rewrite List.filter_app, length_app. simpl.
  destruct (kind c); simpl; lia.
Qed.

Lemma handle_event_counted ev d :
  blocks_counted d -> blocks_counted (handle_event ev d).
Proof.
  unfold blocks_counted, audit, EventAudit. intros [Hb Hs].
  destruct (handle_event_frame ev d) as (_ & _ & _ & Hc).
  rewrite Hc, handle_event_audit. clear Hc.
  destruct ev as [m|m|m|]; simpl.
  - rewrite !bump_other by done.
    destruct (subscribers d !! a_chainID m); simpl;
      rewrite ?count_snoc, ?Z.add_0_r; auto.
  - destruct (subscribers d !! b_chainID m); simpl; [|auto].
    destruct (bool_decide (blkType m = MsgBlockProtoMsgType)).
    { rewrite bump_same, bump_other, !count_snoc by done. simpl.
      rewrite Hb, wrap_int_succ, Z.add_0_r. auto. }
    destruct (bool_decide (blkType m = MsgBlockSyncDataType)); [|auto].
    rewrite bump_same, bump_other, !count_snoc by done. simpl.
    rewrite Hs, wrap_int_succ, Z.add_0_r. auto.
  - rewrite !bump_other by done.
    destruct (subscribers d !! s_chainID m); simpl;
      rewrite ?count_snoc, ?Z.add_0_r; auto.
  - auto.
Qed.

Lemma step_counted d d' :
  step d d' -> blocks_counted d -> blocks_counted d'.
Proof.
  intros Hstep Hd.
  destruct (step_cases d d' Hstep) as [[Ha Hc]|(ev & rest & _ & ->)].
  - unfold blocks_counted, audit, EventAudit in *. rewrite Ha.
    destruct Hc as [->|(sub & c & ->)]; [exact Hd|].
    rewrite !count_snoc, !Z.add_0_r. exact Hd.
  - by apply handle_event_counted.
Qed.

(** X22.  For blocks the audit map tells the truth: in every state a
    dispatcher can reach, the counter of [MsgBlockProtoMsgType] is the number
    of [HandleBlock] calls made and the counter of [MsgBlockSyncDataType] the
    number of [HandleBlockSync] calls made, both as a Go [int]. *)
Theorem block_audit_matches_calls (EventChanSize : nat) (d : IotxDispatcher) :
  reachable EventChanSize d ->
  audit MsgBlockProtoMsgType d = wrap_int (count is_HandleBlock (calls d))
  /\ audit MsgBlockSyncDataType d = wrap_int (count is_HandleBlockSync (calls d)).
Proof.
  induction 1 as [|d d' _ IH Hstep].
  - split; reflexivity.
  - exact (step_counted d d' Hstep IH).
Qed.

(** ** Broadcast events and their subscriber *)

Lemma registered_insert chainID sub subs ev :
  registered subs ev -> registered (<[chainID := sub]> subs) ev.
Proof.
  assert (Hmono : forall k, is_Some (subs !! k) -> is_Some (<[chainID := sub]> subs !! k)).
  { intros k Hk. rewrite lookup_insert_is_Some.
    destruct (decide (chainID = k)); auto. }
  destruct ev; simpl; auto.
Qed.

Lemma in_flight_frame d d' :
  subscribers d' = subscribers d ->
  eventChan d' = eventChan d ->
  goroutines d' = goroutines d ->
  in_flight_registered d -> in_flight_registered d'.
Proof. unfold in_flight_registered. by intros -> -> ->. Qed.

Lemma in_flight_enqueue ev d :
  registered (subscribers d) ev ->
  in_flight_registered d -> in_flight_registered (enqueueEvent ev d).
Proof.
  intros Hev [Hchan Hgo]. split; simpl; [exact Hchan|].
  apply Forall_app. split; [exact Hgo|]. by apply Forall_singleton.
Qed.

Lemma HandleBroadcast_cases chainID message d d' :
  HandleBroadcast chainID message d = Some d' ->
  (subscribers d' = subscribers d
   /\ eventChan d' = eventChan d
   /\ goroutines d' = goroutines d)
  \/ (exists ev, registered (subscribers d) ev /\ d' = enqueueEvent ev d).
Proof.
  intros H.
  unfold Dispatcher.HandleBroadcast, dispatchAction, dispatchBlockCommit, invoke in H.
  destruct message; simpl in H;
    destruct (subscribers d !! chainID) eqn:Hsub; simpl in H;
    try destruct (bool_decide (shutdown d <> 0));
    try destruct (returnsError _ _);
    injection H as <-; simpl; auto;
    right; eexists; (split; [|reflexivity]); simpl; rewrite ?Hsub; eauto.
Qed.

Lemma HandleTell_cases chainID sender message d d' :
  HandleTell chainID sender message d = Some d' ->
  (subscribers d' = subscribers d
   /\ eventChan d' = eventChan d
   /\ goroutines d' = goroutines d)
  \/ (exists ev, registered (subscribers d) ev /\ d' = enqueueEvent ev d).
Proof.
  intros H.
  unfold HandleTell, dispatchBlockSyncReq, dispatchBlockSyncData in H.
  destruct message; simpl in H;
    try destruct (bool_decide (shutdown d <> 0));
    injection H as <-; simpl; auto;
    right; eexists; (split; [|reflexivity]); simpl; done.
Qed.

Lemma step_in_flight d d' :
  step d d' -> in_flight_registered d -> in_flight_registered d'.
Proof.
  intros Hstep Hd. destruct Hstep as
    [chainID sub d|d|d|chainID message d d' H|chainID sender message d d' H
    |i d d' H|i d d' H|d d' H|d d' H].
  - destruct Hd as [Hchan Hgo]. split; simpl.
    + eapply Forall_impl; [|exact Hchan]. intros ev. apply registered_insert.
    + eapply Forall_impl; [|exact Hgo]. intros g. apply registered_insert.
  - revert Hd. apply in_flight_frame; unfold Start_; by_cases.
  - revert Hd. apply in_flight_frame; unfold Stop; by_cases.
  - apply HandleBroadcast_cases in H as [(Hs & Hc & Hg)|(ev & Hev & ->)].
    + by apply (in_flight_frame d).
    + by apply in_flight_enqueue.
  - apply HandleTell_cases in H as [(Hs & Hc & Hg)|(ev & Hev & ->)].
    + by apply (in_flight_frame d).
    + by apply in_flight_enqueue.
  - destruct Hd as [Hchan Hgo]. unfold goroutine_check in H.
    destruct (goroutines d !! i) as [[ev|ev]|] eqn:Hi; try discriminate.
    pose proof (Forall_lookup_1 _ _ _ _ Hgo Hi) as Hev.
    destruct (bool_decide (length (eventChan d) = eventChanCap d));
      injection H as <-; split; simpl; auto.
    + by apply Forall_delete.
    + by apply Forall_insert.
  - destruct Hd as [Hchan Hgo]. unfold goroutine_send in H.
    destruct (goroutines d !! i) as [[ev|ev]|] eqn:Hi; try discriminate.
    pose proof (Forall_lookup_1 _ _ _ _ Hgo Hi) as Hev.
    destruct (bool_decide (length (eventChan d) < eventChanCap d)%nat);
      [|discriminate].
    injection H as <-. split; simpl.
    + apply Forall_app. split; [exact Hchan|]. by apply Forall_singleton.
    + by apply Forall_delete.
  - destruct Hd as [Hchan Hgo]. unfold Dispatcher.newsHandler_receive in H.
    destruct (running d); [|discriminate].
    destruct (eventChan d) as [|m rest] eqn:Hd; [discriminate|].
    injection H as <-.
    destruct (handle_event_frame m (set_eventChan rest d)) as (Hs & _ & Hg & _).
    destruct (handle_event_chan returnsError m (set_eventChan rest d)) as [Hc _].
    unfold in_flight_registered. rewrite Hs, Hg, Hc. simpl.
    split; [|exact Hgo]. by apply (Forall_cons_1 _ m rest) in Hchan as [_ ?].
  - revert Hd. apply in_flight_frame; unfold newsHandler_quit in H; by_cases.
Qed.

Lemma reachable_in_flight EventChanSize d :
  reachable EventChanSize d -> in_flight_registered d.
Proof.
  induction 1 as [|d d' _ IH Hstep].
  - split; constructor.
  - exact (step_in_flight d d' Hstep IH).
Qed.

(** X23.  An action or a new block that [HandleBroadcast] accepted is never
    lost for want of a subscriber: in every state a dispatcher can reach, a
    running event loop that finds an action event or a new-block event at the
    head of the channel takes it and calls the subscriber of its chain. *)
Theorem broadcast_events_find_subscriber
    (EventChanSize : nat) (d : IotxDispatcher) (ev : event) (rest : list event) :
  reachable EventChanSize d ->
  running d = true ->
  eventChan d = ev :: rest ->
  (forall m, ev = EvAction m ->
     exists sub d',
       subscribers d !! a_chainID m = Some sub
       /\ newsHandler_receive d = Some d'
       /\ calls d' = calls d ++ [HandleAction sub (action m)])
  /\ (forall m, ev = EvBlock m -> blkType m = MsgBlockProtoMsgType ->
      exists sub d',
        subscribers d !! b_chainID m = Some sub
        /\ newsHandler_receive d = Some d'
        /\ calls d' = calls d ++ [HandleBlock sub (block m)]).
Proof.
  intros Hd Hrun Hchan.
  apply reachable_in_flight in Hd as [Hreg _].
  rewrite Hchan in Hreg. apply (Forall_cons_1 _ ev rest) in Hreg as [Hev _].
  unfold Dispatcher.newsHandler_receive. rewrite Hrun, Hchan.
  destruct (handle_event_frame ev (set_eventChan rest d)) as (_ & _ & _ & Hc).
  simpl in Hc. split.
  - intros m ->. destruct Hev as [sub Hsub]. simpl in Hc. rewrite Hsub in Hc.
    by eexists sub, _.
  - intros m -> Hty. destruct (Hev Hty) as [sub Hsub].
    simpl in Hc. rewrite Hsub in Hc. simpl in Hc.
    rewrite (bool_decide_eq_true_2 _ Hty) in Hc.
    by eexists sub, _.
Qed.

End MoreWithSubscribers.

(** A run of the dispatcher used below: a subscriber for chain 7 is added,
    the dispatcher is started, a block broadcast for chain 7 goes through a
    goroutine into the channel and is taken by the event loop. *)
Lemma block_broadcast_run :
  let ev := EvBlock (mkBlockMsg 7 [x01]%byte MsgBlockProtoMsgType) in
  let d0 := fst (Start_ (AddSubscriber 7 0%nat (NewDispatcher 2))) in
  reachable (fun _ _ => false) 2 (set_eventChan [ev] d0)
  /\ reachable (fun _ _ => false) 2 (handle_event (fun _ _ => false) ev d0).
Proof.
  intros ev d0.
  pose (rE := fun (_ : list call) (_ : call) => false).
  pose proof (reachable_new rE 2) as H0.
  pose proof (reachable_step rE 2 _ _ H0 (step_AddSubscriber rE 7 0%nat _)) as H1.
  pose proof (reachable_step rE 2 _ _ H1 (step_Start rE _)) as H2.
  assert (H3 : reachable rE 2 (enqueueEvent ev d0)).
  { apply (reachable_step rE 2 d0); [exact H2|].
    by apply (step_HandleBroadcast rE 7 (MBlock [x01]%byte)). }
  assert (H4 : reachable rE 2 (set_goroutines [AtSend ev] d0)).
  { apply (reachable_step rE 2 (enqueueEvent ev d0)); [exact H3|].
    by apply (step_check rE 0). }
  assert (H5 : reachable rE 2 (set_eventChan [ev] d0)).
  { apply (reachable_step rE 2 (set_goroutines [AtSend ev] d0)); [exact H4|].
    by apply (step_send rE 0). }
  assert (H6 : reachable rE 2 (handle_event rE ev d0)).
  { apply (reachable_step rE 2 (set_eventChan [ev] d0)); [exact H5|].
    by apply step_receive. }
  split; [exact H5|exact H6].
Qed.

(** The theorem at a stopped dispatcher with a subscriber for chain 7. *)
Lemma stopped_dispatcher_enqueues_nothing_witness :
  let d := Stop (AddSubscriber 7 0%nat (NewDispatcher 2)) in
  (exists d',
     HandleBroadcast (fun _ _ => false) 7 (MBlock [x01]%byte) d = Some d'
     /\ goroutines d' = goroutines d
     /\ eventChan d' = eventChan d)
  /\ (exists d',
      HandleTell 7 "peer" (MBlock [x01]%byte) d = Some d'
      /\ goroutines d' = goroutines d
      /\ eventChan d' = eventChan d
      /\ calls d' = calls d).
Proof.
  intros d.
  apply (stopped_dispatcher_enqueues_nothing (fun _ _ => false) 7 "peer" (MBlock [x01]%byte) d).
  vm_compute. lia.
Defined.

(** The theorem at a started dispatcher with one event in its channel. *)
Lemma Stop_leaves_queue_undelivered_witness :
  let d := set_eventChan [EvAction (mkActionMsg 7 [x01]%byte)]
             (fst (Start_ (AddSubscriber 7 0%nat (NewDispatcher 2)))) in
  exists d',
    newsHandler_quit (Stop d) = Some d'
    /\ eventChan d' = eventChan d
    /\ calls d' = calls d
    /\ newsHandler_receive (fun _ _ => false) d' = None
    /\ newsHandler_quit d' = None.
Proof.
  intros d.
  exact (Stop_leaves_queue_undelivered (fun _ _ => false) d eq_refl eq_refl).
Defined.

(** The theorem at a channel of three events, the second for a chain without
    a subscriber. *)
Lemma events_delivered_in_order_witness :
  let d := set_eventChan
             [EvAction (mkActionMsg 7 [x01]%byte);
              EvAction (mkActionMsg 8 [x02]%byte);
              EvBlockSync (mkBlockSyncMsg 7 "peer" (mkBlockSync 1 2))]
             (fst (Start_ (AddSubscriber 7 0%nat (NewDispatcher 3)))) in
  exists d',
    newsHandler_turns (fun _ _ => false) (length (eventChan d)) d = Some d'
    /\ eventChan d' = []
    /\ calls d' = calls d ++ omap (call_of (subscribers d)) (eventChan d).
Proof.
  intros d.
  exact (events_delivered_in_order (fun _ _ => false) d eq_refl).
Defined.

(** The theorem after one block broadcast has been delivered. *)
Lemma block_audit_matches_calls_witness :
  let ev := EvBlock (mkBlockMsg 7 [x01]%byte MsgBlockProtoMsgType) in
  let d := handle_event (fun _ _ => false) ev
             (fst (Start_ (AddSubscriber 7 0%nat (NewDispatcher 2)))) in
  audit MsgBlockProtoMsgType d = wrap_int (count is_HandleBlock (calls d))
  /\ audit MsgBlockSyncDataType d = wrap_int (count is_HandleBlockSync (calls d)).
Proof.
  intros ev d.
  apply (block_audit_matches_calls (fun _ _ => false) 2 d).
  apply block_broadcast_run.
Defined.

(** The theorem at a block broadcast that has reached the channel. *)
Lemma broadcast_events_find_subscriber_witness :
  let m := mkBlockMsg 7 [x01]%byte MsgBlockProtoMsgType in
  let d := set_eventChan [EvBlock m]
             (fst (Start_ (AddSubscriber 7 0%nat (NewDispatcher 2)))) in
  exists sub d',
    subscribers d !! b_chainID m = Some sub
    /\ newsHandler_receive (fun _ _ => false) d = Some d'
    /\ calls d' = calls d ++ [HandleBlock sub (block m)].
Proof.
  intros m d.
  pose proof (broadcast_events_find_subscriber (fun _ _ => false) 2 d (EvBlock m) []
                (proj1 block_broadcast_run) eq_refl eq_refl) as [_ Hblock].
  exact (Hblock m eq_refl eq_refl).
Defined.

End DispatcherFacts.
